(** * Connect Four search core: four_in_a_row.py

    A shallow embedding of [get_child_boards], [evaluate], [minimax],
    [alphabeta] and [expectimax], and the properties of the specification
    checked against it.

    Boards are Python objects: the functions receive references, [clone]
    allocates a new object and [place] mutates the object it is called on.
    The embedding therefore keeps a store of board objects and threads it,
    together with the closure variables that the nested functions share
    through [nonlocal], in a state monad with failure. *)

From Stdlib Require Import ZArith Lia Bool.
From Stdlib Require Import Floats.PrimFloat Floats.SpecFloat Floats.FloatOps.
From stdpp Require Import base option list sorting.

Open Scope Z_scope.

(** ** Python numbers

    The scores are Python [int]s (results of [evaluate]) or [float]s
    ([math.inf], [-math.inf] and the products [(1 / 7) * val]).  Both are
    kept apart, as Python does; floats are IEEE 754 binary64. *)

Inductive num : Type :=
| Int (z : Z)
| Flo (f : float).

(** [float(z)]: the [int] to [float] conversion, rounding to nearest even.
    Magnitudes of [2^1024] and more, for which Python raises
    [OverflowError], become an infinity here; no board that fits a memory
    has that many segments. *)
Definition float_of_Z (z : Z) : float :=
  SF2Prim (binary_normalize prec emax z 0 false).

Definition to_float (a : num) : float :=
  match a with
  | Int z => float_of_Z z
  | Flo f => f
  end.

(** [z < f] for an [int] and a [float]: Python compares the exact values. *)
Definition Z_lt_float (z : Z) (f : float) : bool :=
  match Prim2SF f with
  | S754_nan => false
  | S754_infinity neg => negb neg
  | S754_zero _ => z <? 0
  | S754_finite neg m e =>
      let sm := if neg then Z.neg m else Z.pos m in
      if 0 <=? e then z <? sm * 2 ^ e else z * 2 ^ (- e) <? sm
  end.

Definition float_lt_Z (f : float) (z : Z) : bool :=
  match Prim2SF f with
  | S754_nan => false
  | S754_infinity neg => neg
  | S754_zero _ => 0 <? z
  | S754_finite neg m e =>
      let sm := if neg then Z.neg m else Z.pos m in
      if 0 <=? e then sm * 2 ^ e <? z else sm <? z * 2 ^ (- e)
  end.

(** [a < b] *)
Definition num_lt (a b : num) : bool :=
  match a, b with
  | Int x, Int y => x <? y
  | Int x, Flo g => Z_lt_float x g
  | Flo f, Int y => float_lt_Z f y
  | Flo f, Flo g => PrimFloat.ltb f g
  end.

Definition is_nan (a : num) : bool :=
  match a with
  | Int _ => false
  | Flo f => PrimFloat.is_nan f
  end.

(** [a <= b] *)
Definition num_le (a b : num) : bool :=
  negb (is_nan a) && negb (is_nan b) && negb (num_lt b a).

(** [max(a, b)] keeps its first argument unless the second is larger,
    [min(a, b)] unless the second is smaller. *)
Definition num_max (a b : num) : num := if num_lt a b then b else a.
Definition num_min (a b : num) : num := if num_lt b a then b else a.

(** [a + b] and [a * b]; an [int] operand of a mixed operation is converted. *)
Definition num_add (a b : num) : num :=
  match a, b with
  | Int x, Int y => Int (x + y)
  | _, _ => Flo (PrimFloat.add (to_float a) (to_float b))
  end.

Definition num_mul (a b : num) : num :=
  match a, b with
  | Int x, Int y => Int (x * y)
  | _, _ => Flo (PrimFloat.mul (to_float a) (to_float b))
  end.

(** [a / b] is true division: the result is a [float] also for two [int]s. *)
Definition num_div (a b : num) : num :=
  Flo (PrimFloat.div (to_float a) (to_float b)).

Definition inf : num := Flo infinity.
Definition neg_inf : num := Flo neg_infinity.

(** ** The board capability

    The board class is not part of the file: the functions use
    [board.rows], [board.cols], [board.PLAYER1], [board.PLAYER2],
    [board.row(r)], [board.col(c)], [board.placeable(c)],
    [board.place(player, c)], [board.clone()] and [board.terminal()].

    [B] is the type of the contents of a board object and the operations
    are parameters.  [place] gives the contents after the mutation; [clone]
    is modelled in the store, below.  The dimensions are natural numbers and
    the slots integers, [-1] being the sentinel [evaluate] pads with. *)

Class Board (B : Type) : Type := {
  PLAYER1 : Z;
  PLAYER2 : Z;
  rows : B -> nat;
  cols : B -> nat;
  row : B -> nat -> list Z;
  col : B -> nat -> list Z;
  placeable : B -> nat -> bool;
  place : Z -> nat -> B -> B;
  terminal : B -> bool
}.

(** ** Python list helpers *)

(** [l[i:i+4]] *)
Definition slice4 {A} (l : list A) (i : nat) : list A := take 4 (drop i l).

(** [zip( *ls )]: the tuples of the i-th elements, up to the shortest list. *)
Fixpoint zip_star {A} (ls : list (list A)) : list (list A) :=
  match ls with
  | [] => []
  | [l] => map (fun x => [x]) l
  | l :: ls' => zip_with cons l (zip_star ls')
  end.

(** [x in s] and [s.count(x)] *)
Definition mem (x : Z) (s : list Z) : bool := existsb (Z.eqb x) s.
Definition count (x : Z) (s : list Z) : nat := length (filter (fun y => y = x) s).

(** [sum([s*w for s, w in zip(score, weights)])] *)
Definition weighted_sum (score weights : list Z) : Z :=
  foldr Z.add 0 (zip_with Z.mul score weights).

(** [v[k] += 1] *)
Definition bump (k : nat) (v : list Z) : list Z := alter Z.succ k v.

Section Evaluate.
Context {B : Type} `{Board B}.

Definition invalid_slot : Z := -1.
Definition weights : list Z := [0; 1; 4; 16; 1000].

Definition left_revolved (board : B) : list (list Z) :=
  map (fun r => replicate r invalid_slot ++ row board r ++
                replicate (rows board - 1 - r) invalid_slot)
      (seq 0 (rows board)).

Definition right_revolved (board : B) : list (list Z) :=
  map (fun r => replicate (rows board - 1 - r) invalid_slot ++ row board r ++
                replicate r invalid_slot)
      (seq 0 (rows board)).

(** All the 4-slot segments, in the order the four loops append them. *)
Definition segments (board : B) : list (list Z) :=
  flat_map (fun r => map (slice4 (row board r)) (seq 0 (cols board - 3)))
           (seq 0 (rows board))
  ++ flat_map (fun c => map (slice4 (col board c)) (seq 0 (rows board - 3)))
              (seq 0 (cols board))
  ++ flat_map (fun c => map (slice4 c) (seq 0 (rows board - 3)))
              (zip_star (left_revolved board))
  ++ flat_map (fun c => map (slice4 c) (seq 0 (rows board - 3)))
              (zip_star (right_revolved board)).

(** One round of the scoring loop on the pair [(score, adv_score)]. *)
Definition tally (player adversary : Z) (acc : list Z * list Z) (s : list Z)
  : list Z * list Z :=
  if mem invalid_slot s then acc
  else
    let score := if negb (mem adversary s)
                 then bump (count player s) (fst acc) else fst acc in
    let adv_score := if negb (mem player s)
                     then bump (count adversary s) (snd acc) else snd acc in
    (score, adv_score).

Definition tallies (player adversary : Z) (seg : list (list Z))
  : list Z * list Z :=
  foldl (tally player adversary) (replicate 5 0, replicate 5 0) seg.

Definition adversary_of (player : Z) : Z :=
  if player =? PLAYER1 then PLAYER2 else PLAYER1.

Definition evaluate (player : Z) (board : B) : Z :=
  let adversary := adversary_of player in
  let '(score, adv_score) := tallies player adversary (segments board) in
  let reward := weighted_sum score weights in
  let penalty := weighted_sum adv_score weights in
  reward - penalty.

End Evaluate.

(** ** The store and the shared variables

    A board reference is an index in the store; [clone] appends a new
    object, so references are never reused.  The variables [placement],
    [score], [alpha] and [beta] are the ones the nested functions declare
    [nonlocal]: one copy per top-level call, visible to every recursive
    call.  ([minimax] and [expectimax] have no [alpha] and [beta] and never
    touch these two fields.)

    [log] is a ghost field, absent from the program: the calls of [value],
    the calls of [evaluate] and the assignments to [placement], most recent
    first.  Nothing reads it; it is there to state which calls are made. *)

Definition loc : Type := nat.

Inductive event : Type :=
| EvCall (player : Z) (board : loc) (depth_limit : nat)
| EvLeaf (player : Z) (board : loc)
| EvPick (board : loc) (column : nat).

Record state (B : Type) : Type := State {
  heap : list B;
  placement : option nat;
  score : num;
  alpha : num;
  beta : num;
  log : list event
}.

Arguments State {B}.
Arguments heap {B}.
Arguments placement {B}.
Arguments score {B}.
Arguments alpha {B}.
Arguments beta {B}.
Arguments log {B}.

(** Computations that read and write the state and fail on a dangling
    reference (which a Python program cannot hold). *)
Definition M (B A : Type) : Type := state B -> option (A * state B).

Definition ret {B A} (a : A) : M B A := fun s => Some (a, s).

Definition bind {B A C} (m : M B A) (k : A -> M B C) : M B C :=
  fun s => match m s with
           | Some (a, s') => k a s'
           | None => None
           end.

Declare Scope m_scope.
Delimit Scope m_scope with M.
Notation "x <- m ;; k" := (bind m (fun x => k))
  (at level 100, m at next level, right associativity) : m_scope.
Notation "m ;; k" := (bind m (fun _ => k))
  (at level 100, right associativity) : m_scope.
Open Scope m_scope.

Section Primitives.
Context {B : Type}.

Definition read (board : loc) : M B B :=
  fun s => match heap s !! board with
           | Some b => Some (b, s)
           | None => None
           end.

Definition alloc (b : B) : M B loc :=
  fun s => Some (length (heap s),
                 State (heap s ++ [b]) (placement s) (score s)
                       (alpha s) (beta s) (log s)).

Definition write (board : loc) (b : B) : M B unit :=
  fun s => Some (tt, State (<[board := b]> (heap s)) (placement s) (score s)
                           (alpha s) (beta s) (log s)).

Definition get_score : M B num := fun s => Some (score s, s).
Definition get_alpha : M B num := fun s => Some (alpha s, s).
Definition get_beta : M B num := fun s => Some (beta s, s).
Definition get_placement : M B (option nat) := fun s => Some (placement s, s).

Definition set_placement (c : option nat) : M B unit :=
  fun s => Some (tt, State (heap s) c (score s) (alpha s) (beta s) (log s)).
Definition set_score (v : num) : M B unit :=
  fun s => Some (tt, State (heap s) (placement s) v (alpha s) (beta s) (log s)).
Definition set_alpha (v : num) : M B unit :=
  fun s => Some (tt, State (heap s) (placement s) (score s) v (beta s) (log s)).
Definition set_beta (v : num) : M B unit :=
  fun s => Some (tt, State (heap s) (placement s) (score s) (alpha s) v (log s)).

Definition emit (e : event) : M B unit :=
  fun s => Some (tt, State (heap s) (placement s) (score s) (alpha s) (beta s)
                           (e :: log s)).

(** [for x in xs: body]; the body answers [true] when it leaves the loop
    by [break]. *)
Fixpoint for_each {A} (xs : list A) (body : A -> M B bool) : M B unit :=
  match xs with
  | [] => ret tt
  | x :: xs' => brk <- body x;; if brk : bool then ret tt else for_each xs' body
  end.

End Primitives.

(** ** get_child_boards *)

Section MoveGenerator.
Context {B : Type} `{Board B}.

(** Modelled from the spec: [board.clone()], of the board class that is not
    part of the file, "yields a fully independent copy sharing no mutable
    state with the original": a new object with the same contents. *)
Definition clone (board : loc) : M B loc :=
  b <- read board;; alloc b.

(** [board.place(player, c)]: the object itself changes. *)
Definition place_at (player : Z) (c : nat) (board : loc) : M B unit :=
  b <- read board;; write board (place player c b).

(** The loop over [range(board.cols)], [res] being the list built so far. *)
Fixpoint child_loop (player : Z) (board : loc) (cs : list nat)
         (res : list (nat * loc)) : M B (list (nat * loc)) :=
  match cs with
  | [] => ret res
  | c :: cs' =>
      b <- read board;;
      if placeable b c then
        tmp_board <- clone board;;
        place_at player c tmp_board;;
        child_loop player board cs' (res ++ [(c, tmp_board)])
      else child_loop player board cs' res
  end.

Definition get_child_boards (player : Z) (board : loc)
  : M B (list (nat * loc)) :=
  b <- read board;;
  child_loop player board (seq 0 (cols b)) [].

End MoveGenerator.

(** ** minimax

    [max_player] and [next_player] are fixed by the top-level call; the
    nested functions read them from the enclosing scope.  [max_value] and
    [min_value] receive the function they recurse into, which is [value] at
    [depth_limit - 1].  The depth limit is a natural number: the functions
    are specified for non-negative limits only. *)

Module Minimax.
Section Search.
Context {B : Type} `{Board B}.
Variables (max_player next_player : Z).

Definition leaf (board : loc) : M B num :=
  b <- read board;;
  emit (EvLeaf max_player board);;
  ret (Int (evaluate max_player b)).

Definition max_value (value' : Z -> loc -> M B num) (player : Z) (board : loc)
  : M B num :=
  set_score neg_inf;;
  successors <- get_child_boards player board;;
  for_each successors (fun successor =>
    val <- value' next_player (snd successor);;
    score <- get_score;;
    (if num_lt score val then
       set_score val;;
       set_placement (Some (fst successor));;
       emit (EvPick board (fst successor))
     else ret tt);;
    ret false);;
  get_score.

Definition min_value (value' : Z -> loc -> M B num) (player : Z) (board : loc)
  : M B num :=
  set_score inf;;
  successors <- get_child_boards player board;;
  for_each successors (fun successor =>
    val <- value' next_player (snd successor);;
    score <- get_score;;
    (if num_lt val score then
       set_score val;;
       set_placement (Some (fst successor));;
       emit (EvPick board (fst successor))
     else ret tt);;
    ret false);;
  get_score.

Fixpoint value (depth_limit : nat) (player : Z) (board : loc) : M B num :=
  emit (EvCall player board depth_limit);;
  b <- read board;;
  match depth_limit with
  | O => leaf board
  | S d =>
      if terminal b then leaf board
      else if player =? max_player then max_value (value d) player board
      else min_value (value d) player board
  end.

End Search.
End Minimax.

Definition minimax {B : Type} `{Board B} (player : Z) (board : loc)
           (depth_limit : nat) : M B (option nat) :=
  let max_player := player in
  set_placement None;;
  let next_player := if player =? PLAYER1 then PLAYER2 else PLAYER1 in
  set_score neg_inf;;
  v <- Minimax.value max_player next_player depth_limit player board;;
  set_score v;;
  get_placement.

(** ** alphabeta *)

Module AlphaBeta.
Section Search.
Context {B : Type} `{Board B}.
Variables (max_player next_player : Z).

Definition leaf (player : Z) (board : loc) : M B num :=
  b <- read board;;
  emit (EvLeaf player board);;
  ret (Int (evaluate player b)).

Definition max_value (value' : Z -> loc -> M B num) (player : Z) (board : loc)
  : M B num :=
  set_score neg_inf;;
  successors <- get_child_boards player board;;
  for_each successors (fun successor =>
    val <- value' player (snd successor);;
    score <- get_score;;
    (if num_lt score val then
       set_score val;;
       set_placement (Some (fst successor));;
       emit (EvPick board (fst successor));;
       alpha <- get_alpha;;
       score <- get_score;;
       set_alpha (num_max alpha score)
     else ret tt);;
    alpha <- get_alpha;;
    beta <- get_beta;;
    ret (num_le beta alpha));;
  get_score.

Definition min_value (value' : Z -> loc -> M B num) (player : Z) (board : loc)
  : M B num :=
  set_score inf;;
  successors <- get_child_boards player board;;
  for_each successors (fun successor =>
    val <- value' player (snd successor);;
    score <- get_score;;
    (if num_lt val score then
       set_score val;;
       set_placement (Some (fst successor));;
       emit (EvPick board (fst successor));;
       beta <- get_beta;;
       score <- get_score;;
       set_beta (num_min beta score)
     else ret tt);;
    alpha <- get_alpha;;
    beta <- get_beta;;
    ret (num_le beta alpha));;
  get_score.

Fixpoint value (depth_limit : nat) (player : Z) (board : loc) : M B num :=
  emit (EvCall player board depth_limit);;
  b <- read board;;
  match depth_limit with
  | O => leaf player board
  | S d =>
      if terminal b then leaf player board
      else if next_player =? max_player then max_value (value d) player board
      else min_value (value d) player board
  end.

End Search.
End AlphaBeta.

Definition alphabeta {B : Type} `{Board B} (player : Z) (board : loc)
           (depth_limit : nat) : M B (option nat) :=
  let max_player := player in
  set_placement None;;
  let next_player := if player =? PLAYER1 then PLAYER2 else PLAYER1 in
  set_score neg_inf;;
  set_alpha neg_inf;;
  set_beta inf;;
  v <- AlphaBeta.value max_player next_player depth_limit player board;;
  set_score v;;
  get_placement.

(** ** expectimax *)

Module Expectimax.
Section Search.
Context {B : Type} `{Board B}.
Variables (max_player next_player : Z).

Definition leaf (player : Z) (board : loc) : M B num :=
  b <- read board;;
  emit (EvLeaf player board);;
  ret (Int (evaluate player b)).

(** No assignment to [score] before the loop: it starts from whatever the
    shared variable holds. *)
Definition max_value (value' : Z -> loc -> M B num) (player : Z) (board : loc)
  : M B num :=
  successors <- get_child_boards player board;;
  for_each successors (fun successor =>
    val <- value' next_player (snd successor);;
    score <- get_score;;
    (if num_lt score val then
       set_score val;;
       set_placement (Some (fst successor));;
       emit (EvPick board (fst successor))
     else ret tt);;
    ret false);;
  get_score.

Definition min_value (value' : Z -> loc -> M B num) (player : Z) (board : loc)
  : M B num :=
  set_score (Int 0);;
  successors <- get_child_boards player board;;
  for_each successors (fun successor =>
    val <- value' next_player (snd successor);;
    score <- get_score;;
    set_score (num_add score (num_mul (num_div (Int 1) (Int 7)) val));;
    score <- get_score;;
    (if num_lt score val then
       set_score val;;
       set_placement (Some (fst successor));;
       emit (EvPick board (fst successor))
     else ret tt);;
    ret false);;
  get_score.

Fixpoint value (depth_limit : nat) (player : Z) (board : loc) : M B num :=
  emit (EvCall player board depth_limit);;
  b <- read board;;
  match depth_limit with
  | O => leaf player board
  | S d =>
      if terminal b then leaf player board
      else if player =? max_player then max_value (value d) player board
      else min_value (value d) player board
  end.

End Search.
End Expectimax.

Definition expectimax {B : Type} `{Board B} (player : Z) (board : loc)
           (depth_limit : nat) : M B (option nat) :=
  let max_player := player in
  set_placement None;;
  let next_player := if player =? PLAYER1 then PLAYER2 else PLAYER1 in
  set_score neg_inf;;
  v <- Expectimax.value max_player next_player depth_limit player board;;
  set_score v;;
  get_placement.

(** A call on a store [h], with no event logged yet.  The initial values of
    the four variables are immaterial: each top-level function assigns the
    ones it has before it reads them. *)
Definition start {B : Type} (h : list B) : state B :=
  State h None (Int 0) (Int 0) (Int 0) [].

(** ** A board

    Modelled from the spec: the board class, which is not part of the file.
    "A grid of rows x cols slots, each holding empty | PLAYER1 | PLAYER2";
    "a column is placeable iff its topmost slot chain is not full";
    [place] drops a disc in a column; [terminal] is "win or full board".
    The grid is the list of its rows, the top row first; a disc falls to the
    lowest empty slot of its column. *)

Module Grid.

Definition grid : Type := list (list Z).

Definition EMPTY_SLOT : Z := 0.

Definition empty (r c : nat) : grid := replicate r (replicate c EMPTY_SLOT).

Definition grid_rows (g : grid) : nat := length g.
Definition grid_cols (g : grid) : nat := length (default [] (head g)).
Definition grid_row (g : grid) (r : nat) : list Z := default [] (g !! r).
Definition grid_col (g : grid) (c : nat) : list Z :=
  map (fun rw => default EMPTY_SLOT (rw !! c)) g.

Definition grid_placeable (g : grid) (c : nat) : bool :=
  match g with
  | [] => false
  | top :: _ => bool_decide (top !! c = Some EMPTY_SLOT)
  end.

(** The disc goes to the lowest row whose slot in column [c] is empty. *)
Fixpoint drop_disc (player : Z) (c : nat) (g : grid) : option grid :=
  match g with
  | [] => None
  | rw :: g' =>
      match drop_disc player c g' with
      | Some g'' => Some (rw :: g'')
      | None => if bool_decide (rw !! c = Some EMPTY_SLOT)
                then Some (<[c := player]> rw :: g') else None
      end
  end.

Definition grid_place (player : Z) (c : nat) (g : grid) : grid :=
  default g (drop_disc player c g).

(** The slot at row [r] and column [c], [-1] outside the grid. *)
Definition slot (g : grid) (r c : Z) : Z :=
  if (r <? 0) || (c <? 0) then -1
  else default (-1) (g !! Z.to_nat r ≫= fun rw => rw !! Z.to_nat c).

Definition four (g : grid) (player : Z) (r c : nat) (d : Z * Z) : bool :=
  forallb (fun i => slot g (Z.of_nat r + i * fst d) (Z.of_nat c + i * snd d)
                    =? player)
          [0; 1; 2; 3].

Definition wins (g : grid) (player : Z) : bool :=
  existsb (fun r =>
    existsb (fun c =>
      existsb (four g player r c) [(0, 1); (1, 0); (1, 1); (1, -1)])
      (seq 0 (grid_cols g)))
    (seq 0 (grid_rows g)).

Definition full (g : grid) : bool :=
  forallb (fun c => negb (grid_placeable g c)) (seq 0 (grid_cols g)).

Definition grid_terminal (g : grid) : bool :=
  wins g 1 || wins g 2 || full g.

#[global] Instance grid_board : Board grid := {|
  PLAYER1 := 1;
  PLAYER2 := 2;
  rows := grid_rows;
  cols := grid_cols;
  row := grid_row;
  col := grid_col;
  placeable := grid_placeable;
  place := grid_place;
  terminal := grid_terminal
|}.

End Grid.

(** * Vocabulary of the properties *)

Definition swap {A} (p : A * A) : A * A := (snd p, fst p).

(** [wp m s Q]: from [s], [m] returns, and its result and final state
    satisfy [Q]. *)
Definition wp {B A} (m : M B A) (s : state B) (Q : A -> state B -> Prop) : Prop :=
  exists a s', m s = Some (a, s') /\ Q a s'.

(** Every object of [s] is in [s'], with the same contents. *)
Definition unchanged {B} (s s' : state B) : Prop :=
  forall (l : loc) (x : B), heap s !! l = Some x -> heap s' !! l = Some x.

Section Vocabulary.
Context {B : Type} `{Board B}.

(** The score with the roles fixed: [evaluate] chooses the adversary and
    then computes this. *)
Definition advantage (player adversary : Z) (board : B) : Z :=
  let '(score, adv_score) := tallies player adversary (segments board) in
  weighted_sum score weights - weighted_sum adv_score weights.

(** The columns of [cs] in which a disc can be placed on [b]. *)
Definition open_columns (b : B) (cs : list nat) : list nat :=
  filter (fun c => placeable b c = true) cs.

(** The state after the successors of [b] for the columns [cs] have been
    appended to the store. *)
Definition with_children (player : Z) (b : B) (cs : list nat) (s : state B)
  : state B :=
  State (heap s ++ map (fun c => place player c b) cs)
        (placement s) (score s) (alpha s) (beta s) (log s).

(** [P] is a property of boards.  The recorded column, if any, is placeable
    on a board with [P]. *)
Definition recorded_ok (P : B -> Prop) (s : state B) : Prop :=
  forall c, placement s = Some c -> exists b, P b /\ placeable b c = true.

(** What a node promises: the store has only grown since [s]. *)
Definition node_post (P : B -> Prop) (s s' : state B) : Prop :=
  heap s `prefix_of` heap s' /\ recorded_ok P s'.

Definition node_spec (P : B -> Prop) (f : Z -> loc -> M B num) : Prop :=
  forall player board b s,
    heap s !! board = Some b -> P b -> recorded_ok P s ->
    wp (f player board) s (fun _ s' => node_post P s s').

(** What a top-level call promises: it returns, the store has only grown,
    and the column it returns, if any, is placeable on a board with [P]. *)
Definition search_post (P : B -> Prop) (s : state B) (r : option nat)
           (s' : state B) : Prop :=
  unchanged s s' /\
  forall c, r = Some c -> exists b, P b /\ placeable b c = true.

End Vocabulary.

(** The board of the examples: the empty grid of six rows and seven
    columns. *)
Definition empty67 : Grid.grid := Grid.empty 6 7.

(** A position with PLAYER1 to move, who completes four in column 0. *)
Definition threat : Grid.grid :=
  [[0; 0; 0; 0; 0; 0; 0];
   [0; 0; 0; 0; 0; 0; 0];
   [0; 0; 0; 0; 0; 0; 0];
   [1; 0; 0; 0; 0; 0; 0];
   [1; 0; 0; 0; 0; 0; 0];
   [1; 0; 2; 0; 2; 0; 2]].

(** A position in which only the columns 1, 2 and 3 are placeable. *)
Definition narrow : Grid.grid :=
  [[1; 0; 0; 0; 2; 2; 1];
   [2; 0; 0; 0; 1; 1; 2];
   [1; 0; 0; 0; 2; 2; 1];
   [2; 0; 0; 0; 1; 1; 2];
   [1; 0; 0; 0; 2; 2; 1];
   [2; 0; 0; 1; 1; 1; 2]].

(** What a run returned, and the log and the store it ended with. *)
Definition result {B A} (r : option (A * state B)) : option A :=
  option_map fst r.

Definition final_log {B A} (r : option (A * state B)) : list event :=
  match r with
  | Some (_, s) => log s
  | None => []
  end.

Definition final_heap {B A} (r : option (A * state B)) : list B :=
  match r with
  | Some (_, s) => heap s
  | None => []
  end.

(** The events of a log in the order they happened. *)
Definition history (l : list event) : list event := reverse l.

(** The columns a node recorded in [placement], most recent first, and the
    most recent assignment to [placement] with the node that made it. *)
Definition picks_of (board : loc) (l : list event) : list nat :=
  omap (fun e => match e with
                 | EvPick b c => if Nat.eqb b board then Some c else None
                 | _ => None
                 end) l.

Definition last_pick (l : list event) : option (loc * nat) :=
  head (omap (fun e => match e with
                       | EvPick b c => Some (b, c)
                       | _ => None
                       end) l).

(** The player and the remaining depth of each call of [value]. *)
Definition calls (l : list event) : list (Z * nat) :=
  omap (fun e => match e with
                 | EvCall p _ d => Some (p, d)
                 | _ => None
                 end) l.

(** The players [evaluate] was called with. *)
Definition leaf_players (l : list event) : list Z :=
  omap (fun e => match e with
                 | EvLeaf p _ => Some p
                 | _ => None
                 end) l.

(** [sum(vals) / len(vals)] *)
Definition mean (vals : list Z) : num :=
  num_div (Int (foldr Z.add 0 vals)) (Int (Z.of_nat (length vals))).

(** ** Vocabulary of the further properties *)

(** Whom the calls of an event are for: [value] is called with [pc] to
    move, [evaluate] with [pl]. *)
Definition for_players (pc pl : Z) (e : event) : Prop :=
  match e with
  | EvCall p _ _ => p = pc
  | EvLeaf p _ => p = pl
  | EvPick _ _ => True
  end.

(** The same, and an assignment to [placement] is made by a node whose
    board is the object [n] or a later one. *)
Definition event_ok (pc pl : Z) (n : nat) (e : event) : Prop :=
  match e with
  | EvCall p _ _ => p = pc
  | EvLeaf p _ => p = pl
  | EvPick board _ => (n <= board)%nat
  end.

(** From [s] to [s'] the store has only grown, and the events logged in
    between all satisfy [Q]. *)
Definition grows {B} (Q : event -> Prop) (s s' : state B) : Prop :=
  heap s `prefix_of` heap s' /\
  exists new, log s' = new ++ log s /\ Forall Q new.

(** [f], called with [pc] to move on a board of the store that is the
    object [n] or a later one, returns and logs events of [Q] only. *)
Definition calls_ok {B} (Q : event -> Prop) (n : nat) (pc : Z)
           (f : Z -> loc -> M B num) : Prop :=
  forall (board : loc) (b : B) (s : state B),
    heap s !! board = Some b -> (n <= board)%nat ->
    wp (f pc board) s (fun _ s' => grows Q s s').

(** The same for a call whose own entry [e] is logged first and need not
    satisfy [Q]. *)
Definition grows_after {B} (e : event) (Q : event -> Prop) (s s' : state B)
  : Prop :=
  heap s `prefix_of` heap s' /\
  exists new, log s' = new ++ e :: log s /\ Forall Q new.

(** The numbers [minimax] and [alphabeta] compute with: an [int] or one of
    the two infinities. *)
Definition tame (v : num) : Prop :=
  (exists z, v = Int z) \/ v = inf \/ v = neg_inf.

(** From [s] to [s'] the store has only grown and the shared score, if it
    was tame, still is. *)
Definition stays_tame {B} (s s' : state B) : Prop :=
  heap s `prefix_of` heap s' /\ (tame (score s) -> tame (score s')).

(** Both at once. *)
Definition grows_tame {B} (Q : event -> Prop) (s s' : state B) : Prop :=
  grows Q s s' /\ stays_tame s s'.

(** [f] returns a tame value and leaves a tame score. *)
Definition tame_ok {B} (f : Z -> loc -> M B num) : Prop :=
  forall (player : Z) (board : loc) (b : B) (s : state B),
    heap s !! board = Some b -> tame (score s) ->
    wp (f player board) s
       (fun v s' => stays_tame s s' /\ tame v /\ tame (score s')).

(** The store and the recorded column are those of [s]. *)
Definition barren_post {B} (s s' : state B) : Prop :=
  heap s' = heap s /\ placement s' = placement s.

(** [r] is the first column of [cs] at which [f] is maximal (minimal):
    the columns before it have a smaller (larger) value, the ones after it
    none that is larger (smaller); [None] when [cs] is empty. *)
Definition first_max (f : nat -> Z) (cs : list nat) (r : option nat) : Prop :=
  match r with
  | None => cs = []
  | Some c => exists pre post,
                cs = pre ++ c :: post /\
                Forall (fun c' => f c' < f c) pre /\
                Forall (fun c' => f c' <= f c) post
  end.

Definition first_min (f : nat -> Z) (cs : list nat) (r : option nat) : Prop :=
  match r with
  | None => cs = []
  | Some c => exists pre post,
                cs = pre ++ c :: post /\
                Forall (fun c' => f c < f c') pre /\
                Forall (fun c' => f c <= f c') post
  end.

(** One round of a scan that keeps the best column so far with its value:
    a column replaces it only when its value is strictly better. *)
Definition keep_max (f : nat -> Z) (cur : option (nat * Z)) (c : nat)
  : option (nat * Z) :=
  match cur with
  | None => Some (c, f c)
  | Some (_, m) => if m <? f c then Some (c, f c) else cur
  end.

Definition keep_min (f : nat -> Z) (cur : option (nat * Z)) (c : nat)
  : option (nat * Z) :=
  match cur with
  | None => Some (c, f c)
  | Some (_, m) => if f c <? m then Some (c, f c) else cur
  end.

(** The shared variables during such a scan: [placement] is the best column
    so far and [score] its value, [low] before the first column. *)
Definition scanning {B} (low : num) (h : list B) (cur : option (nat * Z))
           (s : state B) : Prop :=
  heap s = h /\
  placement s = option_map fst cur /\
  score s = match cur with
            | None => low
            | Some (_, m) => Int m
            end.

(** [threat] after PLAYER1 has completed four in column 0, and a board
    without an empty slot. *)
Definition won : Grid.grid := Grid.grid_place 1 0 threat.

Definition filled : Grid.grid :=
  [[1; 1; 2; 2; 1; 1; 2];
   [2; 2; 1; 1; 2; 2; 1];
   [1; 1; 2; 2; 1; 1; 2];
   [2; 2; 1; 1; 2; 2; 1];
   [1; 1; 2; 2; 1; 1; 2];
   [2; 2; 1; 1; 2; 2; 1]].

(** An [int] or [+inf]: the values of a search whose nodes are all run by
    [min_value]. *)
Definition upper (v : num) : Prop := (exists z, v = Int z) \/ v = inf.

(** The number of nodes of the tree of depth [d] below [b] in which the
    same [player] moves at every ply: 1 for a leaf, and one more than the
    sum over the successors otherwise. *)
Fixpoint tree_size {B} `{Board B} (player : Z) (d : nat) (b : B) : nat :=
  match d with
  | O => 1
  | S d' =>
      if terminal b then 1
      else S (foldl (fun k c => k + tree_size player d' (place player c b))
                    0 (open_columns b (seq 0 (cols b))))%nat
  end.

(** From [s] to [t] the store has only grown, [value] has been called [k]
    times, [alpha] is still [-inf], [beta] is upper and so is [score] if it
    was. *)
Definition unpruned {B} (s : state B) (k : nat) (t : state B) : Prop :=
  heap s `prefix_of` heap t /\
  (exists new, log t = new ++ log s /\ length (calls new) = k) /\
  alpha t = neg_inf /\ upper (beta t) /\ (upper (score s) -> upper (score t)).

(** [filled] without the two discs at the top of column 3: the only
    placeable column. *)
Definition lone : Grid.grid :=
  [[1; 1; 2; 0; 1; 1; 2];
   [2; 2; 1; 0; 2; 2; 1];
   [1; 1; 2; 2; 1; 1; 2];
   [2; 2; 1; 1; 2; 2; 1];
   [1; 1; 2; 2; 1; 1; 2];
   [2; 2; 1; 1; 2; 2; 1]].

(** * Properties *)

(** ** evaluate *)

Section EvaluateFacts.
Context {B : Type} `{Board B}.

(** A segment has at most four slots, so [s.count(x)] is an index of the
    five-element score vectors: [bump] never falls outside them. *)
Lemma count_slice4 (x : Z) (l : list Z) (i : nat) :
  (count x (slice4 l i) <= 4)%nat.
Proof.
  unfold count, slice4.
  etrans; [apply length_filter|]. rewrite length_take. lia.
Qed.

(** Exchanging the two players exchanges the two score vectors. *)
Lemma tally_swap (player adversary : Z) (acc : list Z * list Z) (s : list Z) :
  tally adversary player (swap acc) s = swap (tally player adversary acc s).
Proof.
  unfold tally, swap. destruct (mem invalid_slot s); reflexivity.
Qed.

Lemma foldl_tally_swap (player adversary : Z) (seg : list (list Z)) :
  forall acc,
    foldl (tally adversary player) (swap acc) seg
    = swap (foldl (tally player adversary) acc seg).
Proof.
  induction seg as [|s seg IH]; intros acc; simpl.
  - reflexivity.
  - rewrite tally_swap. apply IH.
Qed.

Lemma tallies_swap (player adversary : Z) (seg : list (list Z)) :
  tallies adversary player seg = swap (tallies player adversary seg).
Proof.
  unfold tallies. rewrite <- foldl_tally_swap. reflexivity.
Qed.

Lemma evaluate_advantage (player : Z) (board : B) :
  evaluate player board = advantage player (adversary_of player) board.
Proof. reflexivity. Qed.

Lemma advantage_swap (player adversary : Z) (board : B) :
  advantage adversary player board = - advantage player adversary board.
Proof.
  unfold advantage. rewrite tallies_swap.
  destruct (tallies player adversary (segments board)) as [sc adv].
  unfold swap; simpl. lia.
Qed.

(** C6: the score of a board for PLAYER1 is the negation of its score
    for PLAYER2, on every board. *)
Theorem evaluate_antisymmetric (board : B) :
  evaluate PLAYER1 board = - evaluate PLAYER2 board.
Proof.
  rewrite !evaluate_advantage. unfold adversary_of.
  rewrite Z.eqb_refl.
  destruct (Z.eqb_spec PLAYER2 PLAYER1) as [E|_].
  - rewrite E. apply advantage_swap.
  - apply advantage_swap.
Qed.

End EvaluateFacts.

(** ** Reasoning about computations *)

Section WP.
Context {B : Type}.

Lemma wp_ret {A} (a : A) (s : state B) (Q : A -> state B -> Prop) :
  Q a s -> wp (ret a) s Q.
Proof. intros HQ. exists a, s. split; [reflexivity | exact HQ]. Qed.

Lemma wp_bind {A C} (m : M B A) (k : A -> M B C) s (Q : C -> state B -> Prop) :
  wp m s (fun a s' => wp (k a) s' Q) -> wp (bind m k) s Q.
Proof.
  intros (a & s' & Hm & c & s'' & Hk & HQ).
  exists c, s''. unfold bind. rewrite Hm. split; assumption.
Qed.

Lemma wp_mono {A} (m : M B A) s (Q Q' : A -> state B -> Prop) :
  wp m s Q -> (forall a s', Q a s' -> Q' a s') -> wp m s Q'.
Proof.
  intros (a & s' & Hm & HQ) HQQ'. exists a, s'. split; auto.
Qed.

Lemma wp_eq {A} (m : M B A) s a s' (Q : A -> state B -> Prop) :
  m s = Some (a, s') -> Q a s' -> wp m s Q.
Proof. intros Hm HQ. exists a, s'. split; assumption. Qed.

(** A loop keeps what each round keeps. *)
Lemma wp_for_each {A} (xs : list A) (body : A -> M B bool)
      (I : state B -> Prop) :
  (forall x s, x ∈ xs -> I s -> wp (body x) s (fun _ s' => I s')) ->
  forall s, I s -> wp (for_each xs body) s (fun _ s' => I s').
Proof.
  induction xs as [|x xs IH]; intros Hbody s HI; simpl.
  - apply wp_ret. exact HI.
  - apply wp_bind.
    eapply wp_mono; [apply Hbody; [left | exact HI]|].
    intros brk s' HI'. destruct brk.
    + apply wp_ret. exact HI'.
    + apply IH; [|exact HI'].
      intros y t Hy. apply Hbody. right. exact Hy.
Qed.

End WP.

(** ** get_child_boards *)

Section MoveGeneratorFacts.
Context {B : Type} `{Board B}.

Lemma open_columns_sorted (b : B) (n a : nat) :
  StronglySorted lt (open_columns b (seq a n)).
Proof.
  revert a. induction n as [|n IH]; intros a; simpl.
  - constructor.
  - unfold open_columns. rewrite filter_cons.
    destruct (decide (placeable b a = true)) as [_|_]; [|apply IH].
    constructor; [apply IH|].
    apply Forall_forall. intros c Hc.
    apply list_elem_of_filter in Hc as [_ Hc]. apply elem_of_seq in Hc. lia.
Qed.

Lemma child_loop_spec (player : Z) (board : loc) (b : B) (cs : list nat) :
  forall (res : list (nat * loc)) (s : state B),
    heap s !! board = Some b ->
    child_loop player board cs res s
    = Some (res ++ zip (open_columns b cs)
                       (seq (length (heap s)) (length (open_columns b cs))),
            with_children player b (open_columns b cs) s).
Proof.
  induction cs as [|c cs IH]; intros res s Hb.
  - simpl. unfold ret, with_children. destruct s; simpl.
    rewrite !app_nil_r. reflexivity.
  - cbn [child_loop]. unfold bind at 1. unfold read at 1. rewrite Hb.
    unfold open_columns. rewrite filter_cons.
    destruct (placeable b c) eqn:Hp.
    + rewrite decide_True by reflexivity.
      unfold clone, place_at, bind, read, alloc, write. rewrite Hb. simpl.
      rewrite lookup_app_r by lia. rewrite Nat.sub_diag. simpl.
      rewrite insert_app_r_alt by lia. rewrite Nat.sub_diag. simpl.
      fold (open_columns b cs).
      match goal with
      | |- child_loop _ _ _ _ ?s' = _ =>
          specialize (IH (res ++ [(c, length (heap s))]) s')
      end.
      simpl in IH. etrans; [apply IH, lookup_app_l_Some, Hb|].
      rewrite length_app. simpl. rewrite Nat.add_1_r.
      unfold with_children. simpl. rewrite <- !app_assoc. reflexivity.
    + rewrite decide_False by discriminate.
      fold (open_columns b cs). apply IH. exact Hb.
Qed.

Lemma get_child_boards_spec (player : Z) (board : loc) (b : B) (s : state B) :
  heap s !! board = Some b ->
  get_child_boards player board s
  = Some (zip (open_columns b (seq 0 (cols b)))
              (seq (length (heap s))
                   (length (open_columns b (seq 0 (cols b))))),
          with_children player b (open_columns b (seq 0 (cols b))) s).
Proof.
  intros Hb. unfold get_child_boards, bind. unfold read at 1. rewrite Hb.
  rewrite (child_loop_spec player board b _ [] s Hb). reflexivity.
Qed.

End MoveGeneratorFacts.

(** ** What every search keeps

    [P] is any property of boards that placing a disc keeps.  Every node
    leaves the objects of the store as they were, only adding new ones, and
    a column is recorded in [placement] only if it is placeable on a board
    with [P]. *)

Section SearchInvariant.
Context {B : Type} `{Board B}.
Variable P : B -> Prop.
Hypothesis P_place : forall player c b, P b -> P (place player c b).

Lemma node_post_trans (s t u : state B) :
  heap s `prefix_of` heap t -> node_post P t u -> node_post P s u.
Proof.
  intros Hst [Htu Hok]. split; [|exact Hok]. etrans; eassumption.
Qed.

Lemma open_columns_zip (b : B) (cs : list nat) (n : nat) (c : nat) (l : loc)
      (h : list B) (player : Z) :
  length h = n ->
  (c, l) ∈ zip (open_columns b cs) (seq n (length (open_columns b cs))) ->
  placeable b c = true /\
  (h ++ map (fun c => place player c b) (open_columns b cs)) !! l
  = Some (place player c b).
Proof.
  intros Hn Hin.
  apply list_elem_of_lookup in Hin as [i Hi].
  apply lookup_zip_with_Some in Hi as (c' & l' & Heq & Hc & Hl).
  injection Heq as -> ->.
  apply lookup_seq in Hl as [-> Hlt].
  split.
  - apply list_elem_of_lookup_2 in Hc.
    unfold open_columns in Hc. apply list_elem_of_filter in Hc. tauto.
  - rewrite lookup_app_r by lia.
    replace (n + i - length h)%nat with i by lia.
    rewrite list_lookup_fmap, Hc. reflexivity.
Qed.

(** The part the six node functions share: the successors are generated,
    the loop runs over them, the shared score is returned. *)
Lemma node_loop_spec (player : Z) (board : loc) (b : B) (s : state B)
      (body : nat * loc -> M B bool) :
  heap s !! board = Some b -> P b -> recorded_ok P s ->
  (forall c l t,
      placeable b c = true -> heap t !! l = Some (place player c b) ->
      recorded_ok P t ->
      wp (body (c, l)) t (fun _ t' => node_post P t t')) ->
  wp (successors <- get_child_boards player board;;
      for_each successors body;;
      get_score) s (fun _ s' => node_post P s s').
Proof.
  intros Hb HP Hok Hbody.
  apply wp_bind.
  eapply wp_eq; [apply get_child_boards_spec; exact Hb|].
  set (cs := open_columns b (seq 0 (cols b))).
  set (s1 := with_children player b cs s).
  apply wp_bind.
  eapply wp_mono.
  - apply (wp_for_each _ body (fun t => node_post P s1 t)).
    + intros [c l] t Hin [Hpre Hokt].
      eapply open_columns_zip in Hin as [Hc Hl]; [|reflexivity].
      eapply wp_mono.
      * apply (Hbody c l t Hc); [|exact Hokt].
        eapply prefix_lookup_Some; [exact Hl|exact Hpre].
      * intros ? t' Hpost. simpl in Hpost. eapply node_post_trans; eassumption.
    + split; [reflexivity|exact Hok].
  - intros ? t [Hpre Hokt]. eapply wp_eq; [reflexivity|].
    split; [|exact Hokt].
    etrans; [|exact Hpre]. subst s1. unfold with_children. simpl.
    apply prefix_app_r. reflexivity.
Qed.

End SearchInvariant.

Section NodeFacts.
Context {B : Type} `{Board B}.
Variable P : B -> Prop.
Hypothesis P_place : forall player c b, P b -> P (place player c b).
Variables (max_player next_player : Z).

(** Recording a column that is placeable on a board with [P] keeps
    [recorded_ok]; so does leaving [placement] alone. *)
Lemma recorded_ok_pick (b : B) (c : nat) (s : state B) :
  P b -> placeable b c = true -> placement s = Some c -> recorded_ok P s.
Proof.
  intros HP Hc Hs c' Hc'. rewrite Hs in Hc'. injection Hc' as <-.
  exists b. split; assumption.
Qed.

Lemma recorded_ok_same (s s' : state B) :
  placement s' = placement s -> recorded_ok P s -> recorded_ok P s'.
Proof. intros E Hok c Hc. apply Hok. rewrite <- E. exact Hc. Qed.

(** What is left of a round once the recursive call has returned: only
    assignments to the shared variables. *)
Ltac close_round b Hb Hc Hpre Hok :=
  unfold wp, bind, get_score, get_alpha, get_beta, set_score, set_alpha,
    set_beta, set_placement, emit, ret;
  simpl;
  repeat match goal with
         | |- context [if ?x then _ else _] => destruct x; simpl
         end;
  (eexists _, _; split; [reflexivity|]; split; simpl;
   [exact Hpre
   | first [ eapply (recorded_ok_same _ _ eq_refl); exact Hok
           | eapply (recorded_ok_pick b); [exact Hb|exact Hc|reflexivity] ]]).

Ltac enter_node Hloop :=
  eapply wp_mono;
  [ eapply (node_loop_spec P); [eassumption|eassumption| |]
  | intros ? ? Hloop; exact Hloop ].

(** The post-condition only looks at the store of the state a node starts
    from: a state that differs in the log or the score will do. *)
Ltac rebase tac :=
  eapply wp_mono; [tac | intros ? ? Hpost; exact Hpost].

Lemma leaf_spec (f : B -> num) (e : loc -> event) (board : loc) (b : B)
      (s : state B) :
  heap s !! board = Some b -> recorded_ok P s ->
  wp (b <- read board;; emit (e board);; ret (f b)) s
     (fun _ s' => node_post P s s').
Proof.
  intros Hb Hok. unfold wp, bind, read, emit, ret. rewrite Hb. simpl.
  eexists _, _. split; [reflexivity|]. split; simpl; [reflexivity|exact Hok].
Qed.

Lemma minimax_max_value_spec (value' : Z -> loc -> M B num) :
  node_spec P value' ->
  node_spec P (Minimax.max_value next_player value').
Proof.
  intros Hrec player board b s Hb HP Hok. unfold Minimax.max_value.
  apply wp_bind. eapply wp_eq; [reflexivity|].
  enter_node Hloop; [exact Hok|].
  intros c l t Hc Hl Hokt. simpl.
  apply wp_bind. eapply wp_mono; [eapply Hrec; eauto|].
  intros val t' [Hpre Hok'].
  close_round b HP Hc Hpre Hok'.
Qed.

Lemma minimax_min_value_spec (value' : Z -> loc -> M B num) :
  node_spec P value' ->
  node_spec P (Minimax.min_value next_player value').
Proof.
  intros Hrec player board b s Hb HP Hok. unfold Minimax.min_value.
  apply wp_bind. eapply wp_eq; [reflexivity|].
  enter_node Hloop; [exact Hok|].
  intros c l t Hc Hl Hokt. simpl.
  apply wp_bind. eapply wp_mono; [eapply Hrec; eauto|].
  intros val t' [Hpre Hok'].
  close_round b HP Hc Hpre Hok'.
Qed.

Lemma minimax_value_spec (depth_limit : nat) :
  node_spec P (Minimax.value max_player next_player depth_limit).
Proof.
  induction depth_limit as [|d IH]; intros player board b s Hb HP Hok;
    cbn [Minimax.value]; apply wp_bind; (eapply wp_eq; [reflexivity|]);
    apply wp_bind;
    (eapply wp_eq; [unfold read; simpl; rewrite Hb; reflexivity|]).
  - rebase ltac:(eapply (leaf_spec (fun b => Int (evaluate max_player b)) (EvLeaf max_player));
        eassumption).
  - destruct (terminal b).
    + rebase ltac:(eapply (leaf_spec (fun b => Int (evaluate max_player b)) (EvLeaf max_player));
        eassumption).
    + destruct (player =? max_player).
      * rebase ltac:(apply (minimax_max_value_spec _ IH _ _ b); assumption).
      * rebase ltac:(apply (minimax_min_value_spec _ IH _ _ b); assumption).
Qed.

Lemma alphabeta_max_value_spec (value' : Z -> loc -> M B num) :
  node_spec P value' ->
  node_spec P (AlphaBeta.max_value value').
Proof.
  intros Hrec player board b s Hb HP Hok. unfold AlphaBeta.max_value.
  apply wp_bind. eapply wp_eq; [reflexivity|].
  enter_node Hloop; [exact Hok|].
  intros c l t Hc Hl Hokt. simpl.
  apply wp_bind. eapply wp_mono; [eapply Hrec; eauto|].
  intros val t' [Hpre Hok'].
  close_round b HP Hc Hpre Hok'.
Qed.

Lemma alphabeta_min_value_spec (value' : Z -> loc -> M B num) :
  node_spec P value' ->
  node_spec P (AlphaBeta.min_value value').
Proof.
  intros Hrec player board b s Hb HP Hok. unfold AlphaBeta.min_value.
  apply wp_bind. eapply wp_eq; [reflexivity|].
  enter_node Hloop; [exact Hok|].
  intros c l t Hc Hl Hokt. simpl.
  apply wp_bind. eapply wp_mono; [eapply Hrec; eauto|].
  intros val t' [Hpre Hok'].
  close_round b HP Hc Hpre Hok'.
Qed.

Lemma alphabeta_value_spec (depth_limit : nat) :
  node_spec P (AlphaBeta.value max_player next_player depth_limit).
Proof.
  induction depth_limit as [|d IH]; intros player board b s Hb HP Hok;
    cbn [AlphaBeta.value]; apply wp_bind; (eapply wp_eq; [reflexivity|]);
    apply wp_bind;
    (eapply wp_eq; [unfold read; simpl; rewrite Hb; reflexivity|]).
  - rebase ltac:(eapply (leaf_spec (fun b => Int (evaluate player b)) (EvLeaf player));
        eassumption).
  - destruct (terminal b).
    + rebase ltac:(eapply (leaf_spec (fun b => Int (evaluate player b)) (EvLeaf player));
        eassumption).
    + destruct (next_player =? max_player).
      * rebase ltac:(apply (alphabeta_max_value_spec _ IH _ _ b); assumption).
      * rebase ltac:(apply (alphabeta_min_value_spec _ IH _ _ b); assumption).
Qed.

Lemma expectimax_max_value_spec (value' : Z -> loc -> M B num) :
  node_spec P value' ->
  node_spec P (Expectimax.max_value next_player value').
Proof.
  intros Hrec player board b s Hb HP Hok. unfold Expectimax.max_value.
  enter_node Hloop; [exact Hok|].
  intros c l t Hc Hl Hokt. simpl.
  apply wp_bind. eapply wp_mono; [eapply Hrec; eauto|].
  intros val t' [Hpre Hok'].
  close_round b HP Hc Hpre Hok'.
Qed.

Lemma expectimax_min_value_spec (value' : Z -> loc -> M B num) :
  node_spec P value' ->
  node_spec P (Expectimax.min_value next_player value').
Proof.
  intros Hrec player board b s Hb HP Hok. unfold Expectimax.min_value.
  apply wp_bind. eapply wp_eq; [reflexivity|].
  enter_node Hloop; [exact Hok|].
  intros c l t Hc Hl Hokt. simpl.
  apply wp_bind. eapply wp_mono; [eapply Hrec; eauto|].
  intros val t' [Hpre Hok'].
  close_round b HP Hc Hpre Hok'.
Qed.

Lemma expectimax_value_spec (depth_limit : nat) :
  node_spec P (Expectimax.value max_player next_player depth_limit).
Proof.
  induction depth_limit as [|d IH]; intros player board b s Hb HP Hok;
    cbn [Expectimax.value]; apply wp_bind; (eapply wp_eq; [reflexivity|]);
    apply wp_bind;
    (eapply wp_eq; [unfold read; simpl; rewrite Hb; reflexivity|]).
  - rebase ltac:(eapply (leaf_spec (fun b => Int (evaluate player b)) (EvLeaf player));
        eassumption).
  - destruct (terminal b).
    + rebase ltac:(eapply (leaf_spec (fun b => Int (evaluate player b)) (EvLeaf player));
        eassumption).
    + destruct (player =? max_player).
      * rebase ltac:(apply (expectimax_max_value_spec _ IH _ _ b); assumption).
      * rebase ltac:(apply (expectimax_min_value_spec _ IH _ _ b); assumption).
Qed.

End NodeFacts.

(** ** The top-level functions *)

Lemma prefix_unchanged {B} (s s' : state B) :
  heap s `prefix_of` heap s' -> unchanged s s'.
Proof. intros Hpre l x Hl. eapply prefix_lookup_Some; eassumption. Qed.

Section TopLevelFacts.
Context {B : Type} `{Board B}.
Variable P : B -> Prop.
Hypothesis P_place : forall player c b, P b -> P (place player c b).

Ltac finish_search Hpre Hok :=
  unfold wp, bind, set_score, get_placement; simpl;
  eexists _, _; split; [reflexivity|]; split;
  [apply prefix_unchanged; exact Hpre | exact Hok].

Lemma minimax_spec (player : Z) (board : loc) (depth_limit : nat) (b : B)
      (s : state B) :
  heap s !! board = Some b -> P b ->
  wp (minimax player board depth_limit) s (search_post P s).
Proof.
  intros Hb HP. unfold minimax.
  apply wp_bind. eapply wp_eq; [reflexivity|].
  apply wp_bind. eapply wp_eq; [reflexivity|].
  apply wp_bind. eapply wp_mono.
  - eapply (minimax_value_spec P P_place); [exact Hb|exact HP|].
    intros c Hc. discriminate Hc.
  - intros v s' [Hpre Hok]. finish_search Hpre Hok.
Qed.

Lemma alphabeta_spec (player : Z) (board : loc) (depth_limit : nat) (b : B)
      (s : state B) :
  heap s !! board = Some b -> P b ->
  wp (alphabeta player board depth_limit) s (search_post P s).
Proof.
  intros Hb HP. unfold alphabeta.
  do 4 (apply wp_bind; eapply wp_eq; [reflexivity|]).
  apply wp_bind. eapply wp_mono.
  - eapply (alphabeta_value_spec P P_place); [exact Hb|exact HP|].
    intros c Hc. discriminate Hc.
  - intros v s' [Hpre Hok]. finish_search Hpre Hok.
Qed.

Lemma expectimax_spec (player : Z) (board : loc) (depth_limit : nat) (b : B)
      (s : state B) :
  heap s !! board = Some b -> P b ->
  wp (expectimax player board depth_limit) s (search_post P s).
Proof.
  intros Hb HP. unfold expectimax.
  do 2 (apply wp_bind; eapply wp_eq; [reflexivity|]).
  apply wp_bind. eapply wp_mono.
  - eapply (expectimax_value_spec P P_place); [exact Hb|exact HP|].
    intros c Hc. discriminate Hc.
  - intros v s' [Hpre Hok]. finish_search Hpre Hok.
Qed.

End TopLevelFacts.

(** On a grid, a disc never opens a column. *)
Lemma grid_place_placeable (player : Z) (c : nat) (g : Grid.grid) (c' : nat) :
  Grid.grid_placeable (Grid.grid_place player c g) c' = true ->
  Grid.grid_placeable g c' = true.
Proof.
  unfold Grid.grid_place. destruct g as [|rw g]; [simpl; auto|].
  cbn [Grid.drop_disc].
  destruct (Grid.drop_disc player c g) as [g''|]; [simpl; auto|].
  destruct (bool_decide (rw !! c = Some Grid.EMPTY_SLOT)) eqn:Hrw; [|simpl; auto].
  simpl. intros Htop.
  apply bool_decide_eq_true in Hrw. apply bool_decide_eq_true in Htop.
  apply bool_decide_eq_true.
  destruct (decide (c = c')) as [<-|Hne]; [exact Hrw|].
  rewrite list_lookup_insert_ne in Htop by exact Hne. exact Htop.
Qed.

Section Claims.
Context {B : Type} `{Board B}.

(** C7: [get_child_boards(player, board)] returns one pair per placeable
    column, the columns strictly ascending; the board of each pair is a new object
    whose contents are those of the input board with one disc of [player]
    placed in that column, the objects are pairwise distinct, and the list
    is empty when no column is placeable. *)
Theorem get_child_boards_correct (player : Z) (board : loc) (b : B)
        (s : state B) :
  heap s !! board = Some b ->
  exists res s',
    get_child_boards player board s = Some (res, s') /\
    map fst res = filter (fun c => placeable b c = true) (seq 0 (cols b)) /\
    StronglySorted lt (map fst res) /\
    (forall c l, (c, l) ∈ res ->
                 (length (heap s) <= l)%nat /\
                 heap s' !! l = Some (place player c b)) /\
    NoDup (map snd res) /\
    ((forall c, (c < cols b)%nat -> placeable b c = false) -> res = []).
Proof.
  intros Hb. eexists _, _. split; [apply get_child_boards_spec; exact Hb|].
  fold (open_columns b (seq 0 (cols b))).
  set (cs := open_columns b (seq 0 (cols b))).
  split; [|split; [|split; [|split]]].
  - apply fst_zip. rewrite length_seq. reflexivity.
  - match goal with
    | |- StronglySorted lt ?x =>
        replace x with cs
          by (symmetry; apply fst_zip; rewrite length_seq; reflexivity)
    end.
    apply open_columns_sorted.
  - intros c l Hin. split.
    + apply elem_of_zip_r, elem_of_seq in Hin. lia.
    + eapply open_columns_zip in Hin; [|reflexivity]. apply Hin.
  - rewrite snd_zip by (rewrite length_seq; reflexivity). apply NoDup_seq.
  - intros Hnone. destruct cs as [|c cs'] eqn:Hcs; [reflexivity|].
    assert (Hin : c ∈ cs) by (rewrite Hcs; left).
    subst cs. unfold open_columns in Hin.
    apply list_elem_of_filter in Hin as [Hc Hin].
    apply elem_of_seq in Hin. rewrite Hnone in Hc by lia. discriminate Hc.
Qed.

(** C8: after [get_child_boards], [minimax], [alphabeta] or [expectimax],
    every board object that existed before the call, the input board among
    them, holds what it held: discs are placed on new objects only. *)
Theorem input_board_unchanged (player : Z) (board : loc) (depth_limit : nat)
        (b : B) (s : state B) :
  heap s !! board = Some b ->
  (exists res s', get_child_boards player board s = Some (res, s') /\
                  unchanged s s' /\ heap s' !! board = Some b) /\
  (exists r s', minimax player board depth_limit s = Some (r, s') /\
                unchanged s s' /\ heap s' !! board = Some b) /\
  (exists r s', alphabeta player board depth_limit s = Some (r, s') /\
                unchanged s s' /\ heap s' !! board = Some b) /\
  (exists r s', expectimax player board depth_limit s = Some (r, s') /\
                unchanged s s' /\ heap s' !! board = Some b).
Proof.
  intros Hb.
  assert (HT : forall (p : Z) (c : nat) (x : B), True -> True) by auto.
  repeat split.
  - eexists _, _. split; [apply get_child_boards_spec; exact Hb|].
    assert (Hu : unchanged s (with_children player b
                                (open_columns b (seq 0 (cols b))) s)).
    { apply prefix_unchanged. simpl. apply prefix_app_r. reflexivity. }
    split; [exact Hu | apply Hu, Hb].
  - destruct (minimax_spec (fun _ => True) HT player board depth_limit b s Hb I)
      as (r & s' & Hrun & Hu & _).
    exists r, s'. split; [exact Hrun|]. split; [exact Hu | apply Hu, Hb].
  - destruct (alphabeta_spec (fun _ => True) HT player board depth_limit b s Hb I)
      as (r & s' & Hrun & Hu & _).
    exists r, s'. split; [exact Hrun|]. split; [exact Hu | apply Hu, Hb].
  - destruct (expectimax_spec (fun _ => True) HT player board depth_limit b s Hb I)
      as (r & s' & Hrun & Hu & _).
    exists r, s'. split; [exact Hrun|]. split; [exact Hu | apply Hu, Hb].
Qed.

(** C9: with [depth_limit = 0] each of the three functions returns [None]:
    the root is scored as a leaf, no successor is generated (the store is
    the one before the call) and nothing but the root is visited. *)
Theorem depth_zero_returns_none (player : Z) (board : loc) (b : B)
        (s : state B) :
  heap s !! board = Some b ->
  (exists s', minimax player board 0 s = Some (None, s') /\
              heap s' = heap s /\
              log s' = EvLeaf player board :: EvCall player board 0 :: log s) /\
  (exists s', alphabeta player board 0 s = Some (None, s') /\
              heap s' = heap s /\
              log s' = EvLeaf player board :: EvCall player board 0 :: log s) /\
  (exists s', expectimax player board 0 s = Some (None, s') /\
              heap s' = heap s /\
              log s' = EvLeaf player board :: EvCall player board 0 :: log s).
Proof.
  intros Hb.
  repeat split;
    unfold minimax, alphabeta, expectimax, bind, set_placement, set_score,
      set_alpha, set_beta, get_placement;
    cbn [Minimax.value AlphaBeta.value Expectimax.value];
    unfold Minimax.leaf, AlphaBeta.leaf, Expectimax.leaf, bind, emit, read, ret;
    simpl; rewrite Hb; simpl; rewrite Hb;
    eexists; (split; [reflexivity|]); split; reflexivity.
Qed.

(** C10: when placing a disc never makes a column placeable that was not,
    a column returned by [minimax], [alphabeta] or [expectimax] is
    placeable on the input board. *)
Theorem returned_column_placeable (player : Z) (board : loc)
        (depth_limit : nat) (b : B) (s : state B) :
  (forall p c x c', placeable (place p c x) c' = true -> placeable x c' = true) ->
  heap s !! board = Some b ->
  (exists r s', minimax player board depth_limit s = Some (r, s') /\
                forall c, r = Some c -> placeable b c = true) /\
  (exists r s', alphabeta player board depth_limit s = Some (r, s') /\
                forall c, r = Some c -> placeable b c = true) /\
  (exists r s', expectimax player board depth_limit s = Some (r, s') /\
                forall c, r = Some c -> placeable b c = true).
Proof.
  intros Hlaw Hb.
  set (P := fun x : B => forall c, placeable x c = true -> placeable b c = true).
  assert (HP : forall (p : Z) (c : nat) (x : B), P x -> P (place p c x)).
  { intros p c x Hx c' Hc'. apply Hx. eapply Hlaw. exact Hc'. }
  assert (Hroot : P b) by (intros c Hc; exact Hc).
  repeat split.
  - destruct (minimax_spec P HP player board depth_limit b s Hb Hroot)
      as (r & s' & Hrun & _ & Hcol).
    exists r, s'. split; [exact Hrun|].
    intros c Hr. destruct (Hcol c Hr) as (x & Hx & Hc). apply Hx. exact Hc.
  - destruct (alphabeta_spec P HP player board depth_limit b s Hb Hroot)
      as (r & s' & Hrun & _ & Hcol).
    exists r, s'. split; [exact Hrun|].
    intros c Hr. destruct (Hcol c Hr) as (x & Hx & Hc). apply Hx. exact Hc.
  - destruct (expectimax_spec P HP player board depth_limit b s Hb Hroot)
      as (r & s' & Hrun & _ & Hcol).
    exists r, s'. split; [exact Hrun|].
    intros c Hr. destruct (Hcol c Hr) as (x & Hx & Hc). apply Hx. exact Hc.
Qed.

End Claims.

(** ** Runs on a grid

    PLAYER1 is 1 and PLAYER2 is 2; the input board is the object 0 of a
    store that holds nothing else, so the successors of the root are the
    objects 1 to 7, those of object 1 the objects 8 to 14, and so on. *)

(** C1: on the empty 6 x 7 board with depth limit 1, [minimax] returns
    column 3 for PLAYER1 and [alphabeta] returns column 0. *)
Theorem alphabeta_differs_from_minimax :
  result (minimax 1 0%nat 1 (start [empty67])) = Some (Some 3%nat) /\
  result (alphabeta 1 0%nat 1 (start [empty67])) = Some (Some 0%nat).
Proof. split; vm_compute; reflexivity. Qed.

(** C2: in [minimax] for PLAYER1 with depth limit 2 on the empty board,
    the MIN node of the first successor (object 1, PLAYER2 to move, depth 1)
    places a disc of PLAYER2 and recurses into the result (object 8) with
    PLAYER2 to move again; every call below the root has PLAYER2 to move. *)
Theorem min_node_keeps_player :
  let run := minimax 1 0%nat 2 (start [empty67]) in
  take 3 (history (final_log run))
  = [EvCall 1 0%nat 2; EvCall 2 1%nat 1; EvCall 2 8%nat 0] /\
  final_heap run !! 1%nat = Some (place 1 0%nat empty67) /\
  final_heap run !! 8%nat = Some (place 2 0%nat (place 1 0%nat empty67)) /\
  calls (history (final_log run))
  = (1, 2%nat) :: mjoin (replicate 7 ((2, 1%nat) :: replicate 7 (2, 0%nat))).
Proof. repeat split; vm_compute; reflexivity. Qed.

(** C3: in [expectimax] for PLAYER1 with depth limit 1 on the empty board,
    each of the seven leaves is scored by [evaluate] for PLAYER2, and the
    column returned is 0; [minimax] and [alphabeta] score the same leaves
    for PLAYER1. *)
Theorem expectimax_leaf_perspective :
  leaf_players (final_log (expectimax 1 0%nat 1 (start [empty67])))
  = replicate 7 2 /\
  result (expectimax 1 0%nat 1 (start [empty67])) = Some (Some 0%nat) /\
  leaf_players (final_log (minimax 1 0%nat 1 (start [empty67])))
  = replicate 7 1 /\
  leaf_players (final_log (alphabeta 1 0%nat 1 (start [empty67])))
  = replicate 7 1.
Proof. repeat split; vm_compute; reflexivity. Qed.

(** C4: on [threat] with depth limit 2, the root records column 0 and
    nothing else, in each of the three searches; the last assignment to
    [placement] is made by the node of the root's last successor (object 7),
    and its column is the one returned: 3, 1 and 3. *)
Theorem root_decision_overwritten :
  (result (minimax 1 0%nat 2 (start [threat])) = Some (Some 3%nat) /\
   picks_of 0%nat (final_log (minimax 1 0%nat 2 (start [threat]))) = [0%nat] /\
   last_pick (final_log (minimax 1 0%nat 2 (start [threat])))
   = Some (7%nat, 3%nat)) /\
  (result (alphabeta 1 0%nat 2 (start [threat])) = Some (Some 1%nat) /\
   picks_of 0%nat (final_log (alphabeta 1 0%nat 2 (start [threat]))) = [0%nat] /\
   last_pick (final_log (alphabeta 1 0%nat 2 (start [threat])))
   = Some (7%nat, 1%nat)) /\
  (result (expectimax 1 0%nat 2 (start [threat])) = Some (Some 3%nat) /\
   picks_of 0%nat (final_log (expectimax 1 0%nat 2 (start [threat]))) = [0%nat] /\
   last_pick (final_log (expectimax 1 0%nat 2 (start [threat])))
   = Some (7%nat, 3%nat)).
Proof. repeat split; vm_compute; reflexivity. Qed.

(** C5: two chance nodes of [expectimax] for PLAYER1, PLAYER2 to move with
    remaining depth 1, so that the children (the objects the node adds to
    the store) are leaves.  On the board with
    one disc of PLAYER1 in column 3 there are seven replies, their values
    are -4, -3, -2, 3, -2, -3, -4 with a negative mean, and the value of
    the node is above 1.  On [narrow] there are three replies, their values
    are -12, 1 and 2 with mean -3, and the value of the node is 2. *)
Theorem chance_node_not_mean :
  (let run := Expectimax.value 1 2 1 2 0%nat (start [place 1 3%nat empty67]) in
   let child l :=
     result (Expectimax.value 1 2 0 2 l (start (final_heap run))) in
   terminal (place 1 3%nat empty67) = false /\
   map child (seq 1 7)
   = map (fun v => Some (Int v)) [-4; -3; -2; 3; -2; -3; -4] /\
   num_lt (mean [-4; -3; -2; 3; -2; -3; -4]) (Int 0) = true /\
   option_map (num_lt (Int 1)) (result run) = Some true) /\
  (let run := Expectimax.value 1 2 1 2 0%nat (start [narrow]) in
   let child l :=
     result (Expectimax.value 1 2 0 2 l (start (final_heap run))) in
   terminal narrow = false /\
   open_columns narrow (seq 0 (cols narrow)) = [1; 2; 3]%nat /\
   map child (seq 1 3) = map (fun v => Some (Int v)) [-12; 1; 2] /\
   num_lt (mean [-12; 1; 2]) (Int (-2)) = true /\
   result run = Some (Int 2)).
Proof. repeat split; vm_compute; reflexivity. Qed.

(** ** The general theorems at a board *)

Lemma get_child_boards_correct_witness :
  heap (start [empty67]) !! 0%nat = Some empty67 /\
  exists res s',
    get_child_boards 1 0%nat (start [empty67]) = Some (res, s') /\
    map fst res
    = filter (fun c => placeable empty67 c = true) (seq 0 (cols empty67)) /\
    StronglySorted lt (map fst res) /\
    (forall c l, (c, l) ∈ res ->
                 (length (heap (start [empty67])) <= l)%nat /\
                 heap s' !! l = Some (place 1 c empty67)) /\
    NoDup (map snd res) /\
    ((forall c, (c < cols empty67)%nat -> placeable empty67 c = false) ->
     res = []).
Proof.
  split; [reflexivity|].
  apply (get_child_boards_correct 1 0%nat empty67 (start [empty67])).
  reflexivity.
Defined.

Lemma input_board_unchanged_witness :
  heap (start [threat]) !! 0%nat = Some threat /\
  (exists res s', get_child_boards 1 0%nat (start [threat]) = Some (res, s') /\
                  unchanged (start [threat]) s' /\
                  heap s' !! 0%nat = Some threat) /\
  (exists r s', minimax 1 0%nat 3 (start [threat]) = Some (r, s') /\
                unchanged (start [threat]) s' /\
                heap s' !! 0%nat = Some threat) /\
  (exists r s', alphabeta 1 0%nat 3 (start [threat]) = Some (r, s') /\
                unchanged (start [threat]) s' /\
                heap s' !! 0%nat = Some threat) /\
  (exists r s', expectimax 1 0%nat 3 (start [threat]) = Some (r, s') /\
                unchanged (start [threat]) s' /\
                heap s' !! 0%nat = Some threat).
Proof.
  split; [reflexivity|].
  apply (input_board_unchanged 1 0%nat 3 threat (start [threat])).
  reflexivity.
Defined.

Lemma depth_zero_returns_none_witness :
  heap (start [empty67]) !! 0%nat = Some empty67 /\
  (exists s', minimax 1 0%nat 0 (start [empty67]) = Some (None, s') /\
              heap s' = heap (start [empty67]) /\
              log s' = EvLeaf 1 0%nat :: EvCall 1 0%nat 0
                         :: log (start [empty67])) /\
  (exists s', alphabeta 1 0%nat 0 (start [empty67]) = Some (None, s') /\
              heap s' = heap (start [empty67]) /\
              log s' = EvLeaf 1 0%nat :: EvCall 1 0%nat 0
                         :: log (start [empty67])) /\
  (exists s', expectimax 1 0%nat 0 (start [empty67]) = Some (None, s') /\
              heap s' = heap (start [empty67]) /\
              log s' = EvLeaf 1 0%nat :: EvCall 1 0%nat 0
                         :: log (start [empty67])).
Proof.
  split; [reflexivity|].
  apply (depth_zero_returns_none 1 0%nat empty67 (start [empty67])).
  reflexivity.
Defined.

Lemma returned_column_placeable_witness :
  heap (start [threat]) !! 0%nat = Some threat /\
  (exists r s', minimax 1 0%nat 2 (start [threat]) = Some (r, s') /\
                forall c, r = Some c -> placeable threat c = true) /\
  (exists r s', alphabeta 1 0%nat 2 (start [threat]) = Some (r, s') /\
                forall c, r = Some c -> placeable threat c = true) /\
  (exists r s', expectimax 1 0%nat 2 (start [threat]) = Some (r, s') /\
                forall c, r = Some c -> placeable threat c = true).
Proof.
  split; [reflexivity|].
  apply (returned_column_placeable 1 0%nat 2 threat (start [threat])).
  - intros p c x c'. apply grid_place_placeable.
  - reflexivity.
Defined.

(** * Further properties *)

(** ** Loops over the successors *)

Section NodeLoop.
Context {B : Type} `{Board B}.
Variable R : state B -> state B -> Prop.
Hypothesis R_refl : forall s, R s s.
Hypothesis R_trans : forall s t u, R s t -> R t u -> R s u.
Hypothesis R_prefix : forall s t, R s t -> heap s `prefix_of` heap t.
Hypothesis R_children :
  forall player b cs s, R s (with_children player b cs s).

(** The part the node functions share, for a relation [R] that every round
    keeps; the successors are objects the call has added, and the value
    returned is the shared score. *)
Lemma node_loop_rel (player : Z) (board : loc) (b : B) (s : state B)
      (body : nat * loc -> M B bool) :
  heap s !! board = Some b ->
  (forall c l t,
      c ∈ open_columns b (seq 0 (cols b)) ->
      R s t -> (length (heap s) <= l)%nat ->
      heap t !! l = Some (place player c b) ->
      wp (body (c, l)) t (fun _ t' => R t t')) ->
  wp (successors <- get_child_boards player board;;
      for_each successors body;;
      get_score) s (fun v s' => R s s' /\ v = score s').
Proof.
  intros Hb Hbody.
  apply wp_bind.
  eapply wp_eq; [apply get_child_boards_spec; exact Hb|].
  set (cs := open_columns b (seq 0 (cols b))).
  set (s1 := with_children player b cs s).
  assert (Hs1 : R s s1) by apply R_children.
  apply wp_bind.
  eapply wp_mono.
  - apply (wp_for_each _ body (fun t => R s1 t)); [|apply R_refl].
    intros [c l] t Hin HR.
    assert (Hlen : (length (heap s) <= l)%nat)
      by (apply elem_of_zip_r, elem_of_seq in Hin; lia).
    assert (Hc : c ∈ open_columns b (seq 0 (cols b)))
      by (apply elem_of_zip_l in Hin; exact Hin).
    eapply open_columns_zip in Hin as [_ Hl]; [|reflexivity].
    eapply wp_mono.
    + apply (Hbody c l t);
        [exact Hc|eapply R_trans; eassumption|exact Hlen|].
      eapply prefix_lookup_Some; [exact Hl|exact (R_prefix s1 t HR)].
    + intros ? t' Hpost. simpl in Hpost. eapply R_trans; eassumption.
  - intros ? t HR. eapply wp_eq; [reflexivity|].
    split; [eapply R_trans; eassumption|reflexivity].
Qed.

End NodeLoop.

(** Two facts about one run hold together. *)
Lemma wp_conj {B A} (m : M B A) (s : state B) (Q1 Q2 : A -> state B -> Prop) :
  wp m s Q1 -> wp m s Q2 -> wp m s (fun a s' => Q1 a s' /\ Q2 a s').
Proof.
  intros (a & s' & E & H1) (a' & s'' & E' & H2).
  rewrite E in E'. injection E' as <- <-.
  exists a, s'. split; [exact E|]. split; assumption.
Qed.

(** ** Who is to move below the root *)

Section LogFacts.
Context {B : Type} `{Board B}.
Variables (pc pl : Z) (n : nat).
Local Abbreviation Q := (event_ok pc pl n).

Lemma grows_refl (s : state B) : grows Q s s.
Proof. split; [reflexivity|]. exists []. split; [reflexivity|constructor]. Qed.

Lemma grows_trans (s t u : state B) : grows Q s t -> grows Q t u -> grows Q s u.
Proof.
  intros [Hst (n1 & E1 & F1)] [Htu (n2 & E2 & F2)]. split; [etrans; eassumption|].
  exists (n2 ++ n1). split.
  - rewrite E2, E1, app_assoc. reflexivity.
  - apply Forall_app. split; assumption.
Qed.

Lemma grows_prefix (s t : state B) : grows Q s t -> heap s `prefix_of` heap t.
Proof. intros [Hpre _]. exact Hpre. Qed.

Lemma grows_children (player : Z) (b : B) (cs : list nat) (s : state B) :
  grows Q s (with_children player b cs s).
Proof.
  split; [simpl; apply prefix_app_r; reflexivity|].
  exists []. split; [reflexivity|constructor].
Qed.

(** One more event, and the same store. *)
Lemma grows_event (e : event) (s s' : state B) :
  Q e -> heap s' = heap s -> log s' = e :: log s -> grows Q s s'.
Proof.
  intros He Hh Hl. split; [rewrite Hh; reflexivity|].
  exists [e]. split; [exact Hl|]. constructor; [exact He|constructor].
Qed.

Lemma grows_silent (s s' : state B) :
  heap s' = heap s -> log s' = log s -> grows Q s s'.
Proof.
  intros Hh Hl. split; [rewrite Hh; reflexivity|].
  exists []. split; [exact Hl|constructor].
Qed.

Lemma grows_after_intro (e : event) (s s1 s' : state B) :
  heap s1 = heap s -> log s1 = e :: log s -> grows Q s1 s' ->
  grows_after e Q s s'.
Proof.
  intros Hh Hl [Hpre (new & E & F)]. split; [rewrite <- Hh; exact Hpre|].
  exists new. split; [rewrite E, Hl; reflexivity|exact F].
Qed.

Lemma grows_after_elim (e : event) (s s' : state B) :
  Q e -> grows_after e Q s s' -> grows Q s s'.
Proof.
  intros He [Hpre (new & E & F)]. split; [exact Hpre|].
  exists (new ++ [e]). split.
  - rewrite E, <- app_assoc. reflexivity.
  - apply Forall_app. split; [exact F|]. constructor; [exact He|constructor].
Qed.

(** What is left of a round once the recursive call has returned changes
    the shared variables and logs at most an assignment to [placement], by
    the node itself. *)
Ltac close_round_log Hgrow Hn :=
  unfold wp, bind, get_score, get_alpha, get_beta, set_score, set_alpha,
    set_beta, set_placement, emit, ret;
  simpl;
  repeat match goal with
         | |- context [if ?x then _ else _] => destruct x; simpl
         end;
  (eexists _, _; split; [reflexivity|];
   eapply grows_trans; [exact Hgrow|];
   first [ apply grows_silent; reflexivity
         | eapply grows_event; [|reflexivity|reflexivity]; exact Hn ]).

Lemma set_score_then {A} (v : num) (m : M B A) (s : state B)
      (P : A -> state B -> Prop) :
  (forall t, heap t = heap s -> log t = log s ->
             wp m t (fun a s' => grows Q t s' /\ P a s')) ->
  wp (set_score v;; m) s (fun a s' => grows Q s s' /\ P a s').
Proof.
  intros Hm. apply wp_bind. eapply wp_eq; [reflexivity|].
  eapply wp_mono; [apply Hm; reflexivity|].
  intros ? s' Hg. exact Hg.
Qed.

(** A leaf logs the call of [evaluate]. *)
Lemma leaf_grows (f : B -> num) (who : Z) (board : loc) (b : B) (s : state B) :
  who = pl -> heap s !! board = Some b ->
  wp (b <- read board;; emit (EvLeaf who board);; ret (f b)) s
     (fun _ s' => grows Q s s').
Proof.
  intros Hwho Hb. unfold wp, bind, read, emit, ret. rewrite Hb. simpl.
  eexists _, _. split; [reflexivity|].
  eapply (grows_event (EvLeaf who board)); [exact Hwho|reflexivity|reflexivity].
Qed.

Ltac loop_calls Hrec Hb Hn :=
  eapply (node_loop_rel (grows Q) grows_refl grows_trans grows_prefix
                        grows_children); [exact Hb|];
  intros c l u _ _ Hlen Hl; simpl;
  apply wp_bind;
  (eapply wp_mono;
   [eapply Hrec; [exact Hl|apply lookup_lt_Some in Hb; simpl in Hb; lia]|]);
  intros val u' Hgrow; close_round_log Hgrow Hn.

Ltac node_calls Hrec Hb Hn :=
  first [apply set_score_then; intros t Ht _; rewrite <- Ht in Hb;
         loop_calls Hrec Hb Hn
        | loop_calls Hrec Hb Hn].

Lemma minimax_max_value_calls (value' : Z -> loc -> M B num)
      (player : Z) (board : loc) (b : B) (s : state B) :
  calls_ok Q n pc value' ->
  heap s !! board = Some b -> (n <= board)%nat ->
  wp (Minimax.max_value pc value' player board) s
     (fun v s' => grows Q s s' /\ v = score s').
Proof. intros Hrec Hb Hn. unfold Minimax.max_value. node_calls Hrec Hb Hn. Qed.

Lemma minimax_min_value_calls (value' : Z -> loc -> M B num)
      (player : Z) (board : loc) (b : B) (s : state B) :
  calls_ok Q n pc value' ->
  heap s !! board = Some b -> (n <= board)%nat ->
  wp (Minimax.min_value pc value' player board) s
     (fun v s' => grows Q s s' /\ v = score s').
Proof. intros Hrec Hb Hn. unfold Minimax.min_value. node_calls Hrec Hb Hn. Qed.

Lemma expectimax_max_value_calls (value' : Z -> loc -> M B num)
      (player : Z) (board : loc) (b : B) (s : state B) :
  calls_ok Q n pc value' ->
  heap s !! board = Some b -> (n <= board)%nat ->
  wp (Expectimax.max_value pc value' player board) s
     (fun v s' => grows Q s s' /\ v = score s').
Proof.
  intros Hrec Hb Hn. unfold Expectimax.max_value. node_calls Hrec Hb Hn.
Qed.

Lemma expectimax_min_value_calls (value' : Z -> loc -> M B num)
      (player : Z) (board : loc) (b : B) (s : state B) :
  calls_ok Q n pc value' ->
  heap s !! board = Some b -> (n <= board)%nat ->
  wp (Expectimax.min_value pc value' player board) s
     (fun v s' => grows Q s s' /\ v = score s').
Proof.
  intros Hrec Hb Hn. unfold Expectimax.min_value. node_calls Hrec Hb Hn.
Qed.

(** In [alphabeta] a node recurses with its own player. *)
Lemma alphabeta_max_value_calls (value' : Z -> loc -> M B num)
      (board : loc) (b : B) (s : state B) :
  calls_ok Q n pc value' ->
  heap s !! board = Some b -> (n <= board)%nat ->
  wp (AlphaBeta.max_value value' pc board) s
     (fun v s' => grows Q s s' /\ v = score s').
Proof. intros Hrec Hb Hn. unfold AlphaBeta.max_value. node_calls Hrec Hb Hn. Qed.

Lemma alphabeta_min_value_calls (value' : Z -> loc -> M B num)
      (board : loc) (b : B) (s : state B) :
  calls_ok Q n pc value' ->
  heap s !! board = Some b -> (n <= board)%nat ->
  wp (AlphaBeta.min_value value' pc board) s
     (fun v s' => grows Q s s' /\ v = score s').
Proof. intros Hrec Hb Hn. unfold AlphaBeta.min_value. node_calls Hrec Hb Hn. Qed.

(** The entry of [value]: the call is logged and the board is read. *)
Ltac enter_value Hb :=
  apply wp_bind; (eapply wp_eq; [reflexivity|]);
  apply wp_bind;
  (eapply wp_eq; [unfold read; simpl; rewrite Hb; reflexivity|]).

Ltac after_leaf tac :=
  eapply wp_mono;
  [ tac
  | intros ? ? Hg; split;
    [ eapply grows_after_intro; [| |exact Hg]; reflexivity
    | intros [Hd Ht]; first [congruence | discriminate Ht] ] ].

Ltac after_node tac :=
  eapply wp_mono;
  [ tac
  | intros ? ? [Hg Hv]; split;
    [ eapply grows_after_intro; [| |exact Hg]; reflexivity
    | intros _; exact Hv ] ].

(** [minimax]: [pl] is the root player and [pc] the player the nodes
    recurse with.  A call that is not a leaf returns the shared score. *)
Lemma minimax_value_after (depth_limit : nat) :
  forall (player : Z) (board : loc) (b : B) (s : state B),
    heap s !! board = Some b -> (n <= board)%nat ->
    wp (Minimax.value pl pc depth_limit player board) s
       (fun v s' =>
          grows_after (EvCall player board depth_limit) Q s s' /\
          (depth_limit <> 0%nat /\ terminal b = false -> v = score s')).
Proof.
  induction depth_limit as [|d IH]; intros player board b s Hb Hn;
    cbn [Minimax.value]; enter_value Hb.
  - after_leaf ltac:(eapply (leaf_grows _ pl); [reflexivity|exact Hb]).
  - assert (Hrec : calls_ok Q n pc (Minimax.value pl pc d)).
    { intros board' b' s' Hb' Hn'.
      eapply wp_mono; [eapply IH; [exact Hb'|exact Hn']|].
      intros ? ? [Hg _]. eapply grows_after_elim; [|exact Hg]. reflexivity. }
    destruct (terminal b) eqn:Hterm.
    + after_leaf ltac:(eapply (leaf_grows _ pl); [reflexivity|exact Hb]).
    + destruct (player =? pl).
      * after_node ltac:(eapply minimax_max_value_calls;
                         [exact Hrec|exact Hb|exact Hn]).
      * after_node ltac:(eapply minimax_min_value_calls;
                         [exact Hrec|exact Hb|exact Hn]).
Qed.

(** [alphabeta]: a call for [pc] stays with [pc], also at the leaves. *)
Lemma alphabeta_value_after (max_player next_player : Z) (depth_limit : nat) :
  pl = pc ->
  forall (board : loc) (b : B) (s : state B),
    heap s !! board = Some b -> (n <= board)%nat ->
    wp (AlphaBeta.value max_player next_player depth_limit pc board) s
       (fun v s' =>
          grows_after (EvCall pc board depth_limit) Q s s' /\
          (depth_limit <> 0%nat /\ terminal b = false -> v = score s')).
Proof.
  intros Hpl.
  induction depth_limit as [|d IH]; intros board b s Hb Hn;
    cbn [AlphaBeta.value]; enter_value Hb.
  - after_leaf ltac:(eapply (leaf_grows _ pc); [symmetry; exact Hpl|exact Hb]).
  - assert (Hrec : calls_ok Q n pc (AlphaBeta.value max_player next_player d)).
    { intros board' b' s' Hb' Hn'.
      eapply wp_mono; [eapply IH; [exact Hb'|exact Hn']|].
      intros ? ? [Hg _]. eapply grows_after_elim; [|exact Hg]. reflexivity. }
    destruct (terminal b) eqn:Hterm.
    + after_leaf ltac:(eapply (leaf_grows _ pc); [symmetry; exact Hpl|exact Hb]).
    + destruct (next_player =? max_player).
      * after_node ltac:(eapply alphabeta_max_value_calls;
                         [exact Hrec|exact Hb|exact Hn]).
      * after_node ltac:(eapply alphabeta_min_value_calls;
                         [exact Hrec|exact Hb|exact Hn]).
Qed.

(** [expectimax]: below the root the calls are for [pc], whom the leaves
    are scored for as well. *)
Lemma expectimax_value_below (max_player : Z) (depth_limit : nat) :
  pl = pc ->
  forall (board : loc) (b : B) (s : state B),
    heap s !! board = Some b -> (n <= board)%nat ->
    wp (Expectimax.value max_player pc depth_limit pc board) s
       (fun v s' =>
          grows_after (EvCall pc board depth_limit) Q s s' /\
          (depth_limit <> 0%nat /\ terminal b = false -> v = score s')).
Proof.
  intros Hpl.
  induction depth_limit as [|d IH]; intros board b s Hb Hn;
    cbn [Expectimax.value]; enter_value Hb.
  - after_leaf ltac:(eapply (leaf_grows _ pc); [symmetry; exact Hpl|exact Hb]).
  - assert (Hrec : calls_ok Q n pc (Expectimax.value max_player pc d)).
    { intros board' b' s' Hb' Hn'.
      eapply wp_mono; [eapply IH; [exact Hb'|exact Hn']|].
      intros ? ? [Hg _]. eapply grows_after_elim; [|exact Hg]. reflexivity. }
    destruct (terminal b) eqn:Hterm.
    + after_leaf ltac:(eapply (leaf_grows _ pc); [symmetry; exact Hpl|exact Hb]).
    + destruct (pc =? max_player).
      * after_node ltac:(eapply expectimax_max_value_calls;
                         [exact Hrec|exact Hb|exact Hn]).
      * after_node ltac:(eapply expectimax_min_value_calls;
                         [exact Hrec|exact Hb|exact Hn]).
Qed.

(** The root of [expectimax] is either a leaf, scored for the root player,
    or a node below which everything is for [pc]. *)
Lemma expectimax_value_root (max_player : Z) (depth_limit : nat)
      (player : Z) (board : loc) (b : B) (s : state B) :
  pl = pc ->
  heap s !! board = Some b -> (n <= board)%nat ->
  wp (Expectimax.value max_player pc depth_limit player board) s
     (fun _ s' =>
        heap s `prefix_of` heap s' /\
        exists new, log s' = new ++ EvCall player board depth_limit :: log s /\
                    (new = [EvLeaf player board] \/ Forall Q new)).
Proof.
  intros Hpl Hb Hn.
  assert (Hleaf : forall s1 : state B,
             heap s1 = heap s ->
             log s1 = EvCall player board depth_limit :: log s ->
             wp (Expectimax.leaf player board) s1
                (fun _ s' =>
                   heap s `prefix_of` heap s' /\
                   exists new,
                     log s' = new ++ EvCall player board depth_limit :: log s /\
                     (new = [EvLeaf player board] \/ Forall Q new))).
  { intros s1 Hh Hl. unfold Expectimax.leaf, wp, bind, read, emit, ret.
    rewrite Hh, Hb. simpl. eexists _, _. split; [reflexivity|]. simpl.
    split; [rewrite Hh; reflexivity|].
    exists [EvLeaf player board]. rewrite Hl. split; [reflexivity|left; reflexivity]. }
  assert (Hnode : forall (m : M B num) (s1 : state B),
             heap s1 = heap s ->
             log s1 = EvCall player board depth_limit :: log s ->
             wp m s1 (fun v s' => grows Q s1 s' /\ v = score s') ->
             wp m s1
                (fun _ s' =>
                   heap s `prefix_of` heap s' /\
                   exists new,
                     log s' = new ++ EvCall player board depth_limit :: log s /\
                     (new = [EvLeaf player board] \/ Forall Q new))).
  { intros m s1 Hh Hl Hm. eapply wp_mono; [exact Hm|].
    intros ? s' [[Hpre (new & E & F)] _]. split; [rewrite <- Hh; exact Hpre|].
    exists new. rewrite E, Hl. split; [reflexivity|right; exact F]. }
  destruct depth_limit as [|d]; cbn [Expectimax.value]; enter_value Hb.
  - apply Hleaf; reflexivity.
  - assert (Hrec : calls_ok Q n pc (Expectimax.value max_player pc d)).
    { intros board' b' s' Hb' Hn'.
      eapply wp_mono;
        [eapply expectimax_value_below; [exact Hpl|exact Hb'|exact Hn']|].
      intros ? ? [Hg _]. eapply grows_after_elim; [|exact Hg]. reflexivity. }
    destruct (terminal b).
    + apply Hleaf; reflexivity.
    + destruct (player =? max_player).
      * apply Hnode; [reflexivity|reflexivity|].
        eapply expectimax_max_value_calls; [exact Hrec|exact Hb|exact Hn].
      * apply Hnode; [reflexivity|reflexivity|].
        eapply expectimax_min_value_calls; [exact Hrec|exact Hb|exact Hn].
Qed.

End LogFacts.

Lemma event_ok_players (pc pl : Z) (n : nat) (new : list event) :
  Forall (event_ok pc pl n) new -> Forall (for_players pc pl) new.
Proof.
  intros F. eapply Forall_impl; [exact F|].
  intros [p l d|p l|l c]; simpl; auto.
Qed.


Section PlayersOfCalls.
Context {B : Type} `{Board B}.

(** X1: in [minimax], at every depth limit and on every board, each call
    of [value] below the root is made with the opponent of the root player
    to move, under MAX and MIN nodes alike, and each call of [evaluate] is
    for the root player. *)
Theorem minimax_players (player : Z) (board : loc) (depth_limit : nat)
        (b : B) (s : state B) :
  heap s !! board = Some b ->
  exists r s' new,
    minimax player board depth_limit s = Some (r, s') /\
    log s' = new ++ EvCall player board depth_limit :: log s /\
    Forall (for_players (adversary_of player) player) new.
Proof.
  intros Hb.
  set (s1 := State (heap s) None neg_inf (alpha s) (beta s) (log s)).
  destruct (minimax_value_after (adversary_of player) player 0 depth_limit
              player board b s1 Hb (Nat.le_0_l _))
    as (v & s' & Hrun & (_ & new & E & F) & _).
  unfold adversary_of in Hrun. apply event_ok_players in F.
  eexists _, _, new. split; [|split; [|exact F]].
  - unfold minimax, bind, set_placement, set_score, get_placement. simpl.
    fold s1. rewrite Hrun. reflexivity.
  - simpl. exact E.
Qed.

(** X2: in [alphabeta], at every depth limit and on every board, every
    call of [value] has the root player to move and every call of
    [evaluate] is for the root player: the player to move never changes. *)
Theorem alphabeta_players (player : Z) (board : loc) (depth_limit : nat)
        (b : B) (s : state B) :
  heap s !! board = Some b ->
  exists r s' new,
    alphabeta player board depth_limit s = Some (r, s') /\
    log s' = new ++ EvCall player board depth_limit :: log s /\
    Forall (for_players player player) new.
Proof.
  intros Hb.
  set (s1 := State (heap s) None neg_inf neg_inf inf (log s)).
  destruct (alphabeta_value_after player player 0 player (adversary_of player)
              depth_limit eq_refl board b s1 Hb (Nat.le_0_l _))
    as (v & s' & Hrun & (_ & new & E & F) & _).
  unfold adversary_of in Hrun. apply event_ok_players in F.
  eexists _, _, new. split; [|split; [|exact F]].
  - unfold alphabeta, bind, set_placement, set_score, set_alpha, set_beta,
      get_placement. simpl.
    fold s1. rewrite Hrun. reflexivity.
  - simpl. exact E.
Qed.

(** X3: in [expectimax], at every depth limit and on every board, either
    the root is a leaf, scored for the root player, or every call of
    [value] below the root has the opponent of the root player to move and
    every call of [evaluate] is for that opponent. *)
Theorem expectimax_players (player : Z) (board : loc) (depth_limit : nat)
        (b : B) (s : state B) :
  heap s !! board = Some b ->
  exists r s' new,
    expectimax player board depth_limit s = Some (r, s') /\
    log s' = new ++ EvCall player board depth_limit :: log s /\
    (new = [EvLeaf player board] \/
     Forall (for_players (adversary_of player) (adversary_of player)) new).
Proof.
  intros Hb.
  set (s1 := State (heap s) None neg_inf (alpha s) (beta s) (log s)).
  destruct (expectimax_value_root (adversary_of player) (adversary_of player)
              0 player depth_limit player board b s1 eq_refl Hb
              (Nat.le_0_l _))
    as (v & s' & Hrun & _ & new & E & F).
  unfold adversary_of in Hrun.
  assert (F' : new = [EvLeaf player board] \/
               Forall (for_players (adversary_of player) (adversary_of player))
                      new)
    by (destruct F as [F|F]; [left; exact F|right; eapply event_ok_players, F]).
  eexists _, _, new. split; [|split; [|exact F']].
  - unfold expectimax, bind, set_placement, set_score, get_placement. simpl.
    fold s1. rewrite Hrun. reflexivity.
  - simpl. exact E.
Qed.

End PlayersOfCalls.

Lemma minimax_players_witness :
  heap (start [threat]) !! 0%nat = Some threat /\
  exists r s' new,
    minimax 1 0%nat 3 (start [threat]) = Some (r, s') /\
    log s' = new ++ EvCall 1 0%nat 3 :: log (start [threat]) /\
    Forall (for_players (adversary_of 1) 1) new.
Proof.
  split; [reflexivity|].
  apply (minimax_players 1 0%nat 3 threat (start [threat])). reflexivity.
Defined.

Lemma alphabeta_players_witness :
  heap (start [threat]) !! 0%nat = Some threat /\
  exists r s' new,
    alphabeta 1 0%nat 3 (start [threat]) = Some (r, s') /\
    log s' = new ++ EvCall 1 0%nat 3 :: log (start [threat]) /\
    Forall (for_players 1 1) new.
Proof.
  split; [reflexivity|].
  apply (alphabeta_players 1 0%nat 3 threat (start [threat])). reflexivity.
Defined.

Lemma expectimax_players_witness :
  heap (start [threat]) !! 0%nat = Some threat /\
  exists r s' new,
    expectimax 1 0%nat 3 (start [threat]) = Some (r, s') /\
    log s' = new ++ EvCall 1 0%nat 3 :: log (start [threat]) /\
    (new = [EvLeaf 1 0%nat] \/
     Forall (for_players (adversary_of 1) (adversary_of 1)) new).
Proof.
  split; [reflexivity|].
  apply (expectimax_players 1 0%nat 3 threat (start [threat])). reflexivity.
Defined.

(** ** Boards without a move *)

Section NoMove.
Context {B : Type} `{Board B}.

Lemma open_columns_none (b : B) (n : nat) :
  (forall c, (c < n)%nat -> placeable b c = false) ->
  open_columns b (seq 0 n) = [].
Proof.
  intros Hnone. destruct (open_columns b (seq 0 n)) as [|c cs] eqn:E; [reflexivity|].
  assert (Hin : c ∈ open_columns b (seq 0 n)) by (rewrite E; left).
  unfold open_columns in Hin. apply list_elem_of_filter in Hin as [Hc Hin].
  apply elem_of_seq in Hin. rewrite Hnone in Hc by lia. discriminate Hc.
Qed.

(** Without a placeable column [get_child_boards] returns the empty list
    and leaves the state as it is. *)
Lemma get_child_boards_none (player : Z) (board : loc) (b : B) (s : state B) :
  heap s !! board = Some b ->
  (forall c, (c < cols b)%nat -> placeable b c = false) ->
  get_child_boards player board s = Some ([], s).
Proof.
  intros Hb Hnone. rewrite (get_child_boards_spec player board b s Hb).
  rewrite (open_columns_none b (cols b) Hnone). simpl.
  unfold with_children. simpl. rewrite app_nil_r. destruct s; reflexivity.
Qed.

(** X4: on a terminal board each of the three functions returns [None] at
    every depth limit: the root is scored as a leaf, no successor is
    generated and nothing else is visited. *)
Theorem terminal_board_returns_none (player : Z) (board : loc)
        (depth_limit : nat) (b : B) (s : state B) :
  heap s !! board = Some b ->
  terminal b = true ->
  (exists s', minimax player board depth_limit s = Some (None, s') /\
              heap s' = heap s /\
              log s' = EvLeaf player board
                         :: EvCall player board depth_limit :: log s) /\
  (exists s', alphabeta player board depth_limit s = Some (None, s') /\
              heap s' = heap s /\
              log s' = EvLeaf player board
                         :: EvCall player board depth_limit :: log s) /\
  (exists s', expectimax player board depth_limit s = Some (None, s') /\
              heap s' = heap s /\
              log s' = EvLeaf player board
                         :: EvCall player board depth_limit :: log s).
Proof.
  intros Hb Hterm.
  repeat split;
    unfold minimax, alphabeta, expectimax, bind, set_placement, set_score,
      set_alpha, set_beta, get_placement;
    destruct depth_limit;
    cbn [Minimax.value AlphaBeta.value Expectimax.value];
    unfold Minimax.leaf, AlphaBeta.leaf, Expectimax.leaf, bind, emit, read, ret;
    simpl; rewrite Hb; simpl; rewrite ?Hterm; simpl; rewrite ?Hb;
    eexists; (split; [reflexivity|]); split; reflexivity.
Qed.

(** The loop of a node without successors does nothing. *)
Lemma node_without_successors (player : Z) (board : loc) (b : B)
      (body : nat * loc -> M B bool) (s : state B) :
  heap s !! board = Some b ->
  (forall c, (c < cols b)%nat -> placeable b c = false) ->
  (successors <- get_child_boards player board;;
   for_each successors body;;
   get_score) s = Some (score s, s).
Proof.
  intros Hb Hnone. unfold bind.
  rewrite (get_child_boards_none player board b s Hb Hnone). reflexivity.
Qed.

Ltac barren_leaf Hb :=
  unfold Minimax.leaf, AlphaBeta.leaf, Expectimax.leaf, wp, bind, read, emit,
    ret;
  simpl; rewrite Hb; eexists _, _; (split; [reflexivity|]);
  split; reflexivity.

Ltac barren_node Hb Hnone :=
  try (apply wp_bind; eapply wp_eq; [reflexivity|]);
  (eapply wp_eq;
   [eapply node_without_successors; [exact Hb|exact Hnone]|]);
  split; reflexivity.

Lemma minimax_value_barren (max_player next_player : Z) (depth_limit : nat)
      (player : Z) (board : loc) (b : B) (s : state B) :
  heap s !! board = Some b ->
  (forall c, (c < cols b)%nat -> placeable b c = false) ->
  wp (Minimax.value max_player next_player depth_limit player board) s
     (fun _ s' => barren_post s s').
Proof.
  intros Hb Hnone. destruct depth_limit as [|d]; cbn [Minimax.value];
    (apply wp_bind; eapply wp_eq; [reflexivity|]);
    (apply wp_bind;
     eapply wp_eq; [unfold read; simpl; rewrite Hb; reflexivity|]).
  - barren_leaf Hb.
  - destruct (terminal b); [barren_leaf Hb|].
    destruct (player =? max_player);
      unfold Minimax.max_value, Minimax.min_value; barren_node Hb Hnone.
Qed.

Lemma alphabeta_value_barren (max_player next_player : Z) (depth_limit : nat)
      (player : Z) (board : loc) (b : B) (s : state B) :
  heap s !! board = Some b ->
  (forall c, (c < cols b)%nat -> placeable b c = false) ->
  wp (AlphaBeta.value max_player next_player depth_limit player board) s
     (fun _ s' => barren_post s s').
Proof.
  intros Hb Hnone. destruct depth_limit as [|d]; cbn [AlphaBeta.value];
    (apply wp_bind; eapply wp_eq; [reflexivity|]);
    (apply wp_bind;
     eapply wp_eq; [unfold read; simpl; rewrite Hb; reflexivity|]).
  - barren_leaf Hb.
  - destruct (terminal b); [barren_leaf Hb|].
    destruct (next_player =? max_player);
      unfold AlphaBeta.max_value, AlphaBeta.min_value; barren_node Hb Hnone.
Qed.

Lemma expectimax_value_barren (max_player next_player : Z) (depth_limit : nat)
      (player : Z) (board : loc) (b : B) (s : state B) :
  heap s !! board = Some b ->
  (forall c, (c < cols b)%nat -> placeable b c = false) ->
  wp (Expectimax.value max_player next_player depth_limit player board) s
     (fun _ s' => barren_post s s').
Proof.
  intros Hb Hnone. destruct depth_limit as [|d]; cbn [Expectimax.value];
    (apply wp_bind; eapply wp_eq; [reflexivity|]);
    (apply wp_bind;
     eapply wp_eq; [unfold read; simpl; rewrite Hb; reflexivity|]).
  - barren_leaf Hb.
  - destruct (terminal b); [barren_leaf Hb|].
    destruct (player =? max_player);
      unfold Expectimax.max_value, Expectimax.min_value; barren_node Hb Hnone.
Qed.

(** X5: when no column of the input board is placeable, each of the three
    functions returns [None] at every depth limit, whether the board
    reports itself terminal or not, and generates no successor. *)
Theorem no_move_returns_none (player : Z) (board : loc) (depth_limit : nat)
        (b : B) (s : state B) :
  heap s !! board = Some b ->
  (forall c, (c < cols b)%nat -> placeable b c = false) ->
  (exists s', minimax player board depth_limit s = Some (None, s') /\
              heap s' = heap s) /\
  (exists s', alphabeta player board depth_limit s = Some (None, s') /\
              heap s' = heap s) /\
  (exists s', expectimax player board depth_limit s = Some (None, s') /\
              heap s' = heap s).
Proof.
  intros Hb Hnone.
  repeat split.
  - destruct (minimax_value_barren player
                (if player =? PLAYER1 then PLAYER2 else PLAYER1) depth_limit
                player board b
                (State (heap s) None neg_inf (alpha s) (beta s) (log s))
                Hb Hnone) as (v & s' & Hrun & Hh & Hp).
    eexists. unfold minimax, bind, set_placement, set_score, get_placement.
    simpl. rewrite Hrun. simpl. split; [rewrite Hp; reflexivity|exact Hh].
  - destruct (alphabeta_value_barren player
                (if player =? PLAYER1 then PLAYER2 else PLAYER1) depth_limit
                player board b
                (State (heap s) None neg_inf neg_inf inf (log s))
                Hb Hnone) as (v & s' & Hrun & Hh & Hp).
    eexists. unfold alphabeta, bind, set_placement, set_score, set_alpha,
      set_beta, get_placement.
    simpl. rewrite Hrun. simpl. split; [rewrite Hp; reflexivity|exact Hh].
  - destruct (expectimax_value_barren player
                (if player =? PLAYER1 then PLAYER2 else PLAYER1) depth_limit
                player board b
                (State (heap s) None neg_inf (alpha s) (beta s) (log s))
                Hb Hnone) as (v & s' & Hrun & Hh & Hp).
    eexists. unfold expectimax, bind, set_placement, set_score, get_placement.
    simpl. rewrite Hrun. simpl. split; [rewrite Hp; reflexivity|exact Hh].
Qed.

End NoMove.

(** ** Depth limit 1 *)

Section Scan.
Variable f : nat -> Z.

Lemma keep_max_first (cs : list nat) :
  forall seen cur,
    first_max f seen (option_map fst cur) ->
    (forall c m, cur = Some (c, m) -> m = f c) ->
    first_max f (seen ++ cs) (option_map fst (foldl (keep_max f) cur cs)) /\
    (forall c m, foldl (keep_max f) cur cs = Some (c, m) -> m = f c).
Proof.
  induction cs as [|c cs IH]; intros seen cur Hseen Hval; simpl.
  - rewrite app_nil_r. split; assumption.
  - replace (seen ++ c :: cs) with ((seen ++ [c]) ++ cs)
      by (rewrite <- app_assoc; reflexivity).
    apply IH.
    + destruct cur as [[c0 m]|]; simpl in *.
      * rewrite (Hval c0 m eq_refl).
        destruct Hseen as (pre & post & -> & Hpre & Hpost).
        destruct (Z.ltb_spec (f c0) (f c)) as [Hlt|Hge]; simpl.
        -- exists (pre ++ c0 :: post), []. split; [reflexivity|]. split.
           ++ apply Forall_app. split.
              ** eapply Forall_impl; [exact Hpre|]. simpl. intros; lia.
              ** constructor; [exact Hlt|].
                 eapply Forall_impl; [exact Hpost|]. simpl. intros; lia.
           ++ constructor.
        -- exists pre, (post ++ [c]). split.
           ++ rewrite <- app_assoc. reflexivity.
           ++ split; [exact Hpre|]. apply Forall_app. split; [exact Hpost|].
              constructor; [lia|constructor].
      * subst seen. exists [], []. split; [reflexivity|]. split; constructor.
    + intros c1 m1 E. destruct cur as [[c0 m]|]; simpl in E.
      * destruct (m <? f c); [injection E as <- <-; reflexivity|].
        eapply Hval. exact E.
      * injection E as <- <-. reflexivity.
Qed.

Lemma keep_min_first (cs : list nat) :
  forall seen cur,
    first_min f seen (option_map fst cur) ->
    (forall c m, cur = Some (c, m) -> m = f c) ->
    first_min f (seen ++ cs) (option_map fst (foldl (keep_min f) cur cs)) /\
    (forall c m, foldl (keep_min f) cur cs = Some (c, m) -> m = f c).
Proof.
  induction cs as [|c cs IH]; intros seen cur Hseen Hval; simpl.
  - rewrite app_nil_r. split; assumption.
  - replace (seen ++ c :: cs) with ((seen ++ [c]) ++ cs)
      by (rewrite <- app_assoc; reflexivity).
    apply IH.
    + destruct cur as [[c0 m]|]; simpl in *.
      * rewrite (Hval c0 m eq_refl).
        destruct Hseen as (pre & post & -> & Hpre & Hpost).
        destruct (Z.ltb_spec (f c) (f c0)) as [Hlt|Hge]; simpl.
        -- exists (pre ++ c0 :: post), []. split; [reflexivity|]. split.
           ++ apply Forall_app. split.
              ** eapply Forall_impl; [exact Hpre|]. simpl. intros; lia.
              ** constructor; [exact Hlt|].
                 eapply Forall_impl; [exact Hpost|]. simpl. intros; lia.
           ++ constructor.
        -- exists pre, (post ++ [c]). split.
           ++ rewrite <- app_assoc. reflexivity.
           ++ split; [exact Hpre|]. apply Forall_app. split; [exact Hpost|].
              constructor; [lia|constructor].
      * subst seen. exists [], []. split; [reflexivity|]. split; constructor.
    + intros c1 m1 E. destruct cur as [[c0 m]|]; simpl in E.
      * destruct (f c <? m); [injection E as <- <-; reflexivity|].
        eapply Hval. exact E.
      * injection E as <- <-. reflexivity.
Qed.

Lemma scan_first_max (cs : list nat) :
  first_max f cs (option_map fst (foldl (keep_max f) None cs)).
Proof.
  apply (keep_max_first cs [] None); [reflexivity|discriminate].
Qed.

Lemma scan_first_min (cs : list nat) :
  first_min f cs (option_map fst (foldl (keep_min f) None cs)).
Proof.
  apply (keep_min_first cs [] None); [reflexivity|discriminate].
Qed.

End Scan.

Lemma num_lt_neg_inf (z : Z) : num_lt neg_inf (Int z) = true.
Proof. reflexivity. Qed.

Lemma num_lt_inf (z : Z) : num_lt (Int z) inf = true.
Proof. reflexivity. Qed.

Lemma num_le_neg_inf (z : Z) : num_le (Int z) neg_inf = false.
Proof. reflexivity. Qed.

Lemma num_le_inf_neg_inf : num_le inf neg_inf = false.
Proof. reflexivity. Qed.

Section ScanLoop.
Context {B : Type} `{Board B}.

(** A loop that never leaves by [break] and whose rounds follow [step]. *)
Lemma for_each_fold {A C} (xs : list A) (body : A -> M B bool)
      (I : C -> state B -> Prop) (step : C -> A -> C) :
  (forall x cur t, x ∈ xs -> I cur t ->
                   exists t', body x t = Some (false, t') /\ I (step cur x) t') ->
  forall cur s, I cur s ->
                exists s', for_each xs body s = Some (tt, s') /\
                           I (foldl step cur xs) s'.
Proof.
  induction xs as [|x xs IH]; intros Hbody cur s HI; simpl.
  - exists s. split; [reflexivity|exact HI].
  - destruct (Hbody x cur s (list_elem_of_here _ _) HI) as (t' & E & HI').
    unfold bind. rewrite E.
    apply IH; [|exact HI'].
    intros y cur' t Hy. apply Hbody. right. exact Hy.
Qed.

(** A node all of whose rounds follow [step] on the columns. *)
Lemma scan_node {C} (I : C -> state B -> Prop) (step : C -> nat -> C)
      (body : nat * loc -> M B bool) (player : Z) (board : loc) (b : B)
      (start_cur : C) (s : state B) :
  let cs := open_columns b (seq 0 (cols b)) in
  let s1 := with_children player b cs s in
  heap s !! board = Some b ->
  I start_cur s1 ->
  (forall c l cur t,
      heap s1 !! l = Some (place player c b) -> I cur t ->
      exists t', body (c, l) t = Some (false, t') /\ I (step cur c) t') ->
  exists v s',
    (successors <- get_child_boards player board;;
     for_each successors body;;
     get_score) s = Some (v, s') /\
    v = score s' /\
    I (foldl step start_cur cs) s'.
Proof.
  intros cs s1 Hb Hstart Hbody.
  unfold bind at 1. rewrite (get_child_boards_spec player board b s Hb).
  cbv beta iota. fold cs. fold s1.
  set (succs := zip cs (seq (length (heap s)) (length cs))).
  destruct (for_each_fold succs body I (fun cur x => step cur (fst x)))
    with (cur := start_cur) (s := s1) as (s' & E & HI).
  - intros [c l] cur t Hin HI. simpl.
    apply (Hbody c l cur t); [|exact HI].
    eapply open_columns_zip in Hin as [_ Hl]; [|reflexivity]. exact Hl.
  - exact Hstart.
  - exists (score s'), s'. unfold bind.
    match goal with
    | |- context [match ?m with Some _ => _ | None => _ end] =>
        replace m with (Some (tt, s')) by (symmetry; exact E)
    end.
    split; [reflexivity|]. split; [reflexivity|].
    assert (Hfst : fst <$> succs = cs)
      by (apply fst_zip; rewrite length_seq; reflexivity).
    rewrite <- Hfst at 1. rewrite foldl_fmap. exact HI.
Qed.

End ScanLoop.

Section DepthOne.
Context {B : Type} `{Board B}.

(** The value of a leaf, and what it leaves behind. *)
Ltac run_leaf Hh Hl :=
  cbv beta; simpl fst; simpl snd;
  cbn [Minimax.value AlphaBeta.value Expectimax.value];
  unfold Minimax.leaf, AlphaBeta.leaf, Expectimax.leaf, bind, emit, read, ret,
    get_score, get_alpha, get_beta, set_score, set_alpha, set_beta,
    set_placement;
  simpl; rewrite ?Hh, ?Hl; simpl; rewrite ?Hh, ?Hl; simpl.

Lemma minimax_max_value_leaves (max_player next_player player : Z)
      (board : loc) (b : B) (s : state B) :
  let f := fun c => evaluate max_player (place player c b) in
  let cs := open_columns b (seq 0 (cols b)) in
  heap s !! board = Some b ->
  placement s = None ->
  wp (Minimax.max_value next_player (Minimax.value max_player next_player 0)
        player board) s
     (fun _ s' => placement s' = option_map fst (foldl (keep_max f) None cs)).
Proof.
  intros f cs Hb Hnone. unfold Minimax.max_value.
  apply wp_bind. eapply wp_eq; [reflexivity|].
  set (s0 := State (heap s) (placement s) neg_inf (alpha s) (beta s) (log s)).
  set (h := heap (with_children player b cs s0)).
  eapply wp_mono.
  - unfold wp.
    eapply (scan_node (scanning neg_inf h) (keep_max f)) with (start_cur := None);
      [exact Hb| |].
    + split; [reflexivity|]. split; [exact Hnone|reflexivity].
    + intros c l cur t Hl (Hh & Hp & Hs).
      change (h !! l = Some (place player c b)) in Hl. run_leaf Hh Hl.
      rewrite Hs. change (evaluate max_player (place player c b)) with (f c).
      destruct cur as [[c0 m]|]; simpl.
      * destruct (m <? f c); simpl; eexists; (split; [reflexivity|]);
          repeat split; simpl; assumption.
      * eexists. split; [reflexivity|]. repeat split; simpl; assumption.
  - intros ? s' (_ & _ & Hp & _). exact Hp.
Qed.

Lemma alphabeta_min_value_leaves (max_player next_player player : Z)
      (board : loc) (b : B) (s : state B) :
  let f := fun c => evaluate player (place player c b) in
  let cs := open_columns b (seq 0 (cols b)) in
  heap s !! board = Some b ->
  placement s = None -> alpha s = neg_inf -> beta s = inf ->
  wp (AlphaBeta.min_value (AlphaBeta.value max_player next_player 0)
        player board) s
     (fun _ s' => placement s' = option_map fst (foldl (keep_min f) None cs)).
Proof.
  intros f cs Hb Hnone Halpha Hbeta. unfold AlphaBeta.min_value.
  apply wp_bind. eapply wp_eq; [reflexivity|].
  set (s0 := State (heap s) (placement s) inf (alpha s) (beta s) (log s)).
  set (h := heap (with_children player b cs s0)).
  eapply wp_mono.
  - unfold wp.
    eapply (scan_node (fun cur t => scanning inf h cur t /\
                                    alpha t = neg_inf /\ beta t = score t)
                      (keep_min f)) with (start_cur := None);
      [exact Hb| |].
    + split; [|split; [exact Halpha|exact Hbeta]].
      split; [reflexivity|]. split; [exact Hnone|reflexivity].
    + intros c l cur t Hl ((Hh & Hp & Hs) & Ha & Hbt).
      change (h !! l = Some (place player c b)) in Hl. run_leaf Hh Hl.
      rewrite Ha, Hbt, Hs.
      change (evaluate player (place player c b)) with (f c).
      destruct cur as [[c0 m]|]; simpl.
      * destruct (f c <? m) eqn:E; simpl;
          unfold num_min; cbn [num_lt]; rewrite ?E, ?num_le_neg_inf;
          eexists; (split; [reflexivity|]); simpl;
          repeat split; simpl; try assumption; reflexivity.
      * unfold num_min. rewrite ?num_lt_inf, ?num_le_neg_inf.
        eexists. split; [reflexivity|]. simpl.
        repeat split; simpl; try assumption; reflexivity.
  - intros ? s' (_ & (_ & Hp & _) & _). exact Hp.
Qed.

Lemma expectimax_max_value_leaves (max_player next_player player : Z)
      (board : loc) (b : B) (s : state B) :
  let f := fun c => evaluate next_player (place player c b) in
  let cs := open_columns b (seq 0 (cols b)) in
  heap s !! board = Some b ->
  placement s = None -> score s = neg_inf ->
  wp (Expectimax.max_value next_player
        (Expectimax.value max_player next_player 0) player board) s
     (fun _ s' => placement s' = option_map fst (foldl (keep_max f) None cs)).
Proof.
  intros f cs Hb Hnone Hscore. unfold Expectimax.max_value.
  set (h := heap (with_children player b cs s)).
  eapply wp_mono.
  - unfold wp.
    eapply (scan_node (scanning neg_inf h) (keep_max f)) with (start_cur := None);
      [exact Hb| |].
    + split; [reflexivity|]. split; [exact Hnone|exact Hscore].
    + intros c l cur t Hl (Hh & Hp & Hs).
      change (h !! l = Some (place player c b)) in Hl. run_leaf Hh Hl.
      rewrite Hs. change (evaluate next_player (place player c b)) with (f c).
      destruct cur as [[c0 m]|]; simpl.
      * destruct (m <? f c); simpl; eexists; (split; [reflexivity|]);
          repeat split; simpl; assumption.
      * eexists. split; [reflexivity|]. repeat split; simpl; assumption.
  - intros ? s' (_ & _ & Hp & _). exact Hp.
Qed.

End DepthOne.

Section DepthOneSearch.
Context {B : Type} `{Board B}.

Lemma adversary_differs (player : Z) :
  PLAYER1 <> PLAYER2 ->
  ((if player =? PLAYER1 then PLAYER2 else PLAYER1) =? player) = false.
Proof.
  intros Hne. destruct (Z.eqb_spec player PLAYER1) as [->|Hp];
    apply Z.eqb_neq; congruence.
Qed.

Ltac enter_root Hb Ht :=
  apply wp_bind;
  cbn [Minimax.value AlphaBeta.value Expectimax.value];
  apply wp_bind; (eapply wp_eq; [reflexivity|]);
  apply wp_bind;
  (eapply wp_eq; [unfold read; simpl; rewrite Hb; reflexivity|]);
  rewrite Ht.

Ltac leave_root Hp :=
  unfold wp, bind, set_score, get_placement; simpl;
  eexists _, _; split; [reflexivity|]; exact Hp.

Lemma minimax_depth_one_run (player : Z) (board : loc) (b : B) (s : state B) :
  heap s !! board = Some b ->
  terminal b = false ->
  wp (minimax player board 1) s
     (fun r _ =>
        r = option_map fst
              (foldl (keep_max (fun c => evaluate player (place player c b)))
                     None (open_columns b (seq 0 (cols b))))).
Proof.
  intros Hb Ht. unfold minimax.
  do 2 (apply wp_bind; eapply wp_eq; [reflexivity|]).
  enter_root Hb Ht. rewrite Z.eqb_refl.
  eapply wp_mono;
    [eapply minimax_max_value_leaves; [exact Hb|reflexivity]|].
  intros v s' Hp. simpl in Hp. leave_root Hp.
Qed.

Lemma alphabeta_depth_one_run (player : Z) (board : loc) (b : B) (s : state B) :
  PLAYER1 <> PLAYER2 ->
  heap s !! board = Some b ->
  terminal b = false ->
  wp (alphabeta player board 1) s
     (fun r _ =>
        r = option_map fst
              (foldl (keep_min (fun c => evaluate player (place player c b)))
                     None (open_columns b (seq 0 (cols b))))).
Proof.
  intros Hne Hb Ht. unfold alphabeta.
  do 4 (apply wp_bind; eapply wp_eq; [reflexivity|]).
  enter_root Hb Ht. rewrite (adversary_differs player Hne).
  eapply wp_mono;
    [eapply (alphabeta_min_value_leaves player player player);
     [exact Hb|reflexivity..]|].
  intros v s' Hp. simpl in Hp. leave_root Hp.
Qed.

Lemma expectimax_depth_one_run (player : Z) (board : loc) (b : B)
      (s : state B) :
  heap s !! board = Some b ->
  terminal b = false ->
  wp (expectimax player board 1) s
     (fun r _ =>
        r = option_map fst
              (foldl (keep_max (fun c => evaluate (adversary_of player)
                                                  (place player c b)))
                     None (open_columns b (seq 0 (cols b))))).
Proof.
  intros Hb Ht. unfold expectimax.
  do 2 (apply wp_bind; eapply wp_eq; [reflexivity|]).
  enter_root Hb Ht. rewrite Z.eqb_refl.
  eapply wp_mono;
    [eapply (expectimax_max_value_leaves player);
     [exact Hb|reflexivity..]|].
  intros v s' Hp. simpl in Hp. leave_root Hp.
Qed.

(** X6: with depth limit 1 on a board that is not terminal, [minimax]
    returns the first column, among the placeable ones in ascending order,
    whose successor has the highest score for the player, and [None] when
    no column is placeable. *)
Theorem minimax_depth_one (player : Z) (board : loc) (b : B) (s : state B) :
  heap s !! board = Some b ->
  terminal b = false ->
  exists r s',
    minimax player board 1 s = Some (r, s') /\
    first_max (fun c => evaluate player (place player c b))
              (open_columns b (seq 0 (cols b))) r.
Proof.
  intros Hb Ht.
  destruct (minimax_depth_one_run player board b s Hb Ht) as (r & s' & E & ->).
  eexists _, s'. split; [exact E|apply scan_first_max].
Qed.

(** X7: with depth limit 1 on a board that is not terminal, and two
    distinct player tokens, [alphabeta] returns the first column whose
    successor has the lowest score for the player: its root is run by
    [min_value], and nothing is pruned. *)
Theorem alphabeta_depth_one (player : Z) (board : loc) (b : B) (s : state B) :
  PLAYER1 <> PLAYER2 ->
  heap s !! board = Some b ->
  terminal b = false ->
  exists r s',
    alphabeta player board 1 s = Some (r, s') /\
    first_min (fun c => evaluate player (place player c b))
              (open_columns b (seq 0 (cols b))) r.
Proof.
  intros Hne Hb Ht.
  destruct (alphabeta_depth_one_run player board b s Hne Hb Ht)
    as (r & s' & E & ->).
  eexists _, s'. split; [exact E|apply scan_first_min].
Qed.

(** X8: with depth limit 1 on a board that is not terminal, [expectimax]
    returns the first column whose successor has the highest score for the
    opponent of the player. *)
Theorem expectimax_depth_one (player : Z) (board : loc) (b : B) (s : state B) :
  heap s !! board = Some b ->
  terminal b = false ->
  exists r s',
    expectimax player board 1 s = Some (r, s') /\
    first_max (fun c => evaluate (adversary_of player) (place player c b))
              (open_columns b (seq 0 (cols b))) r.
Proof.
  intros Hb Ht.
  destruct (expectimax_depth_one_run player board b s Hb Ht)
    as (r & s' & E & ->).
  eexists _, s'. split; [exact E|apply scan_first_max].
Qed.

(** The score for the opponent is the negated score, for a player of the
    board. *)
Lemma evaluate_adversary (player : Z) (b : B) :
  PLAYER1 <> PLAYER2 ->
  player = PLAYER1 \/ player = PLAYER2 ->
  evaluate (adversary_of player) b = - evaluate player b.
Proof.
  intros Hne Hplayer. rewrite !evaluate_advantage.
  assert (Hback : adversary_of (adversary_of player) = player).
  { unfold adversary_of. destruct Hplayer as [-> | ->].
    - rewrite Z.eqb_refl.
      destruct (Z.eqb_spec PLAYER2 PLAYER1); congruence.
    - destruct (Z.eqb_spec PLAYER2 PLAYER1); [congruence|].
      rewrite Z.eqb_refl. reflexivity. }
  rewrite Hback. apply advantage_swap.
Qed.

(** A scan for the maximum of [f] and one for the minimum of [- f] keep the
    same column. *)
Lemma keep_max_min (f g : nat -> Z) (cs : list nat) :
  (forall c, f c = - g c) ->
  forall cur cur',
    option_map fst cur = option_map fst cur' ->
    option_map snd cur = option_map (fun x => - snd x) cur' ->
    option_map fst (foldl (keep_max f) cur cs)
    = option_map fst (foldl (keep_min g) cur' cs).
Proof.
  intros Hfg. induction cs as [|c cs IH]; intros cur cur' Hc Hm; simpl.
  - exact Hc.
  - apply IH.
    + destruct cur as [[c0 m]|], cur' as [[c0' m']|]; simpl in *;
        try discriminate; try reflexivity.
      injection Hc as <-. injection Hm as ->. rewrite Hfg.
      destruct (Z.ltb_spec (- m') (- g c)), (Z.ltb_spec (g c) m');
        simpl; try reflexivity; lia.
    + destruct cur as [[c0 m]|], cur' as [[c0' m']|]; simpl in *;
        try discriminate.
      * injection Hc as <-. injection Hm as ->. rewrite Hfg.
        destruct (Z.ltb_spec (- m') (- g c)), (Z.ltb_spec (g c) m');
          simpl; try reflexivity; lia.
      * rewrite Hfg. reflexivity.
Qed.

(** X11: with depth limit 1 on a board that is not terminal, for a player
    of a board with two distinct player tokens, [expectimax] and
    [alphabeta] return the same column: the first one whose successor has
    the lowest score for the player. *)
Theorem expectimax_alphabeta_depth_one (player : Z) (board : loc) (b : B)
        (s : state B) :
  PLAYER1 <> PLAYER2 ->
  player = PLAYER1 \/ player = PLAYER2 ->
  heap s !! board = Some b ->
  terminal b = false ->
  exists r s1 s2,
    expectimax player board 1 s = Some (r, s1) /\
    alphabeta player board 1 s = Some (r, s2) /\
    first_min (fun c => evaluate player (place player c b))
              (open_columns b (seq 0 (cols b))) r.
Proof.
  intros Hne Hplayer Hb Ht.
  destruct (expectimax_depth_one_run player board b s Hb Ht)
    as (r1 & s1 & E1 & ->).
  destruct (alphabeta_depth_one_run player board b s Hne Hb Ht)
    as (r2 & s2 & E2 & ->).
  eexists _, s1, s2. split; [|split; [exact E2|apply scan_first_min]].
  rewrite E1. f_equal. f_equal.
  apply keep_max_min; [|reflexivity|reflexivity].
  intros c. apply evaluate_adversary; assumption.
Qed.

End DepthOneSearch.

(** ** What the root records at depth limits of 2 and more *)

Lemma num_lt_irrefl (v : num) : tame v -> num_lt v v = false.
Proof.
  intros [[z ->]|[->| ->]]; [apply Z.ltb_irrefl|reflexivity|reflexivity].
Qed.

Lemma tame_int (z : Z) : tame (Int z).
Proof. left. exists z. reflexivity. Qed.

Lemma tame_inf : tame inf.
Proof. right. left. reflexivity. Qed.

Lemma tame_neg_inf : tame neg_inf.
Proof. right. right. reflexivity. Qed.

Section TameFacts.
Context {B : Type} `{Board B}.

Lemma stays_tame_refl (s : state B) : stays_tame s s.
Proof. split; [reflexivity|auto]. Qed.

Lemma stays_tame_trans (s t u : state B) :
  stays_tame s t -> stays_tame t u -> stays_tame s u.
Proof. intros [P1 T1] [P2 T2]. split; [etrans; eassumption|auto]. Qed.

Lemma stays_tame_prefix (s t : state B) :
  stays_tame s t -> heap s `prefix_of` heap t.
Proof. intros [Hpre _]. exact Hpre. Qed.

Lemma stays_tame_children (player : Z) (b : B) (cs : list nat) (s : state B) :
  stays_tame s (with_children player b cs s).
Proof. split; [simpl; apply prefix_app_r; reflexivity|auto]. Qed.

(** What is left of a round assigns to [score] the value of the call, or
    nothing. *)
Ltac close_round_tame Hst Hval Hscore :=
  unfold wp, bind, get_score, get_alpha, get_beta, set_score, set_alpha,
    set_beta, set_placement, emit, ret;
  simpl;
  repeat match goal with
         | |- context [if ?x then _ else _] => destruct x; simpl
         end;
  (eexists _, _; split; [reflexivity|]; split; simpl;
   [apply Hst | intros _; first [exact Hval|exact Hscore]]).

Ltac node_tame low Hrec Hb :=
  apply wp_bind; (eapply wp_eq; [reflexivity|]);
  eapply wp_mono;
  [ eapply (node_loop_rel stays_tame stays_tame_refl stays_tame_trans
                          stays_tame_prefix stays_tame_children);
    [exact Hb|];
    intros c l t _ HR _ Hl; simpl;
    apply wp_bind;
    (eapply wp_mono;
     [eapply Hrec; [exact Hl|apply HR; exact low]|]);
    intros val t' (Hst & Hval & Hscore);
    close_round_tame Hst Hval Hscore
  | intros v s' [[Hpre Htame] ->];
    assert (Hs' : tame (score s')) by (apply Htame; exact low);
    split; [split; [exact Hpre|intros _; exact Hs']|];
    split; exact Hs' ].

Lemma minimax_max_value_tame (next_player : Z)
      (value' : Z -> loc -> M B num) :
  tame_ok value' -> tame_ok (Minimax.max_value next_player value').
Proof.
  intros Hrec player board b s Hb _. unfold Minimax.max_value.
  node_tame tame_neg_inf Hrec Hb.
Qed.

Lemma minimax_min_value_tame (next_player : Z)
      (value' : Z -> loc -> M B num) :
  tame_ok value' -> tame_ok (Minimax.min_value next_player value').
Proof.
  intros Hrec player board b s Hb _. unfold Minimax.min_value.
  node_tame tame_inf Hrec Hb.
Qed.

Lemma alphabeta_max_value_tame (value' : Z -> loc -> M B num) :
  tame_ok value' -> tame_ok (AlphaBeta.max_value value').
Proof.
  intros Hrec player board b s Hb _. unfold AlphaBeta.max_value.
  node_tame tame_neg_inf Hrec Hb.
Qed.

Lemma alphabeta_min_value_tame (value' : Z -> loc -> M B num) :
  tame_ok value' -> tame_ok (AlphaBeta.min_value value').
Proof.
  intros Hrec player board b s Hb _. unfold AlphaBeta.min_value.
  node_tame tame_inf Hrec Hb.
Qed.

Lemma leaf_tame (who : Z) (board : loc) (b : B) (s : state B) :
  heap s !! board = Some b -> tame (score s) ->
  wp (b <- read board;; emit (EvLeaf who board);; ret (Int (evaluate who b))) s
     (fun v s' => stays_tame s s' /\ tame v /\ tame (score s')).
Proof.
  intros Hb Htame. unfold wp, bind, read, emit, ret. rewrite Hb. simpl.
  eexists _, _. split; [reflexivity|]. simpl.
  split; [split; [reflexivity|auto]|]. split; [apply tame_int|exact Htame].
Qed.

Lemma minimax_value_tame (max_player next_player : Z) (depth_limit : nat) :
  tame_ok (Minimax.value max_player next_player depth_limit).
Proof.
  induction depth_limit as [|d IH]; intros player board b s Hb Htame;
    cbn [Minimax.value].
  - apply wp_bind; (eapply wp_eq; [reflexivity|]).
    apply wp_bind;
      (eapply wp_eq; [unfold read; simpl; rewrite Hb; reflexivity|]).
    eapply wp_mono; [eapply (leaf_tame max_player); [exact Hb|exact Htame]|].
    intros ? ? Hpost. exact Hpost.
  - apply wp_bind; (eapply wp_eq; [reflexivity|]).
    apply wp_bind;
      (eapply wp_eq; [unfold read; simpl; rewrite Hb; reflexivity|]).
    destruct (terminal b).
    + eapply wp_mono; [eapply (leaf_tame max_player); [exact Hb|exact Htame]|].
      intros ? ? Hpost. exact Hpost.
    + destruct (player =? max_player).
      * eapply wp_mono;
          [eapply (minimax_max_value_tame _ _ IH); [exact Hb|exact Htame]|].
        intros ? ? Hpost. exact Hpost.
      * eapply wp_mono;
          [eapply (minimax_min_value_tame _ _ IH); [exact Hb|exact Htame]|].
        intros ? ? Hpost. exact Hpost.
Qed.

Lemma alphabeta_value_tame (max_player next_player : Z) (depth_limit : nat) :
  tame_ok (AlphaBeta.value max_player next_player depth_limit).
Proof.
  induction depth_limit as [|d IH]; intros player board b s Hb Htame;
    cbn [AlphaBeta.value].
  - apply wp_bind; (eapply wp_eq; [reflexivity|]).
    apply wp_bind;
      (eapply wp_eq; [unfold read; simpl; rewrite Hb; reflexivity|]).
    eapply wp_mono; [eapply (leaf_tame player); [exact Hb|exact Htame]|].
    intros ? ? Hpost. exact Hpost.
  - apply wp_bind; (eapply wp_eq; [reflexivity|]).
    apply wp_bind;
      (eapply wp_eq; [unfold read; simpl; rewrite Hb; reflexivity|]).
    destruct (terminal b).
    + eapply wp_mono; [eapply (leaf_tame player); [exact Hb|exact Htame]|].
      intros ? ? Hpost. exact Hpost.
    + destruct (next_player =? max_player).
      * eapply wp_mono;
          [eapply (alphabeta_max_value_tame _ IH); [exact Hb|exact Htame]|].
        intros ? ? Hpost. exact Hpost.
      * eapply wp_mono;
          [eapply (alphabeta_min_value_tame _ IH); [exact Hb|exact Htame]|].
        intros ? ? Hpost. exact Hpost.
Qed.

End TameFacts.

Section RootRecords.
Context {B : Type} `{Board B}.

Lemma no_picks (pc pl : Z) (n : nat) (board : loc) (new : list event) :
  Forall (event_ok pc pl n) new -> (board < n)%nat ->
  picks_of board new = [].
Proof.
  intros F Hlt. induction F as [|e new He _ IH]; [reflexivity|].
  destruct e as [p l d|p l|l c]; try exact IH.
  simpl in He. unfold picks_of in *. cbn.
  destruct (Nat.eqb_spec l board) as [->|_]; [lia|exact IH].
Qed.

Section Relation.
Variables (pc pl : Z) (n : nat).
Local Abbreviation Q := (event_ok pc pl n).

Lemma grows_tame_refl (s : state B) : grows_tame Q s s.
Proof. split; [apply grows_refl|apply stays_tame_refl]. Qed.

Lemma grows_tame_trans (s t u : state B) :
  grows_tame Q s t -> grows_tame Q t u -> grows_tame Q s u.
Proof.
  intros [G1 T1] [G2 T2].
  split; [eapply grows_trans|eapply stays_tame_trans]; eassumption.
Qed.

Lemma grows_tame_prefix (s t : state B) :
  grows_tame Q s t -> heap s `prefix_of` heap t.
Proof. intros [_ [Hpre _]]. exact Hpre. Qed.

Lemma grows_tame_children (player : Z) (b : B) (cs : list nat) (s : state B) :
  grows_tame Q s (with_children player b cs s).
Proof. split; [apply grows_children|apply stays_tame_children]. Qed.

(** A round of a node for a successor that is not a leaf: the value of the
    call is the shared score, so that the comparison fails and nothing is
    recorded. *)
Lemma round_of_inner_successor (rest : M B bool) (value' : M B num)
      (test : num -> num -> bool) (pick : num -> M B unit) (t : state B) :
  (forall v, tame v -> test v v = false) ->
  (exists brk, forall u, rest u = Some (brk u, u)) ->
  tame (score t) ->
  wp value' t (fun v t' => (grows Q t t' /\ v = score t') /\
                           stays_tame t t' /\ tame v /\ tame (score t')) ->
  wp (val <- value';;
      score <- get_score;;
      (if test score val then pick val else ret tt);;
      rest) t (fun _ t' => grows_tame Q t t').
Proof.
  intros Htest [brk Hrest] Htame Hcall.
  apply wp_bind. eapply wp_mono; [exact Hcall|].
  intros v t' ((Hg & Hv) & Hst & Htv & _).
  unfold wp, bind, get_score. rewrite <- Hv, (Htest v Htv). unfold ret.
  rewrite Hrest. eexists _, _. split; [reflexivity|]. split; assumption.
Qed.

End Relation.

Ltac root_loop Hb Hinner call :=
  eapply wp_mono;
  [ eapply (node_loop_rel _ (grows_tame_refl _ _ _) (grows_tame_trans _ _ _)
                          (grows_tame_prefix _ _ _)
                          (grows_tame_children _ _ _));
    [exact Hb|];
    intros c l t Hc HR Hlen Hl; simpl;
    eapply round_of_inner_successor;
    [ intros v Hv; apply num_lt_irrefl; exact Hv
    | eexists; intros u; reflexivity
    | apply HR; first [exact tame_neg_inf|exact tame_inf]
    | call c l t Hc HR Hlen Hl ]
  | intros v s' [[Hg _] _]; exact Hg ].

(** The root of [minimax] at a depth limit of 2 or more, when none of its
    successors is terminal: every event is logged by a node of a later
    object than those of the store the call started with. *)
Lemma minimax_root_inner (player : Z) (board : loc) (b : B) (d : nat)
      (s : state B) :
  let next_player := adversary_of player in
  heap s !! board = Some b ->
  (forall c, c ∈ open_columns b (seq 0 (cols b)) ->
             terminal (place player c b) = false) ->
  wp (Minimax.max_value next_player (Minimax.value player next_player (S d))
        player board) s
     (fun _ s' => grows (event_ok next_player player (length (heap s))) s s').
Proof.
  intros next_player Hb Hinner. unfold Minimax.max_value.
  apply wp_bind. eapply wp_eq; [reflexivity|].
  root_loop Hb Hinner
    ltac:(fun c l t Hc HR Hlen Hl =>
            apply wp_conj;
            [ eapply wp_mono;
              [ eapply (minimax_value_after next_player player
                          (length (heap s)) (S d) next_player l);
                [exact Hl|exact Hlen]
              | intros v t' [Hga Hv]; split;
                [ eapply grows_after_elim; [|exact Hga]; reflexivity
                | apply Hv; split; [discriminate|apply Hinner; exact Hc] ] ]
            | eapply (minimax_value_tame player next_player (S d)
                        next_player l);
              [exact Hl|apply HR; exact tame_neg_inf] ]).
Qed.

Ltac alphabeta_inner_call player max_player next_player d s Hinner :=
  fun c l t Hc HR Hlen Hl =>
    apply wp_conj;
    [ eapply wp_mono;
      [ eapply (alphabeta_value_after player player (length (heap s))
                  max_player next_player (S d) eq_refl l);
        [exact Hl|exact Hlen]
      | intros v t' [Hga Hv]; split;
        [ eapply grows_after_elim; [|exact Hga]; reflexivity
        | apply Hv; split; [discriminate|apply Hinner; exact Hc] ] ]
    | eapply (alphabeta_value_tame max_player next_player (S d) player l);
      [exact Hl|apply HR; first [exact tame_neg_inf|exact tame_inf]] ].

Lemma alphabeta_root_inner_max (max_player next_player player : Z)
      (board : loc) (b : B) (d : nat) (s : state B) :
  heap s !! board = Some b ->
  (forall c, c ∈ open_columns b (seq 0 (cols b)) ->
             terminal (place player c b) = false) ->
  wp (AlphaBeta.max_value (AlphaBeta.value max_player next_player (S d))
        player board) s
     (fun _ s' => grows (event_ok player player (length (heap s))) s s').
Proof.
  intros Hb Hinner. unfold AlphaBeta.max_value.
  apply wp_bind. eapply wp_eq; [reflexivity|].
  root_loop Hb Hinner
    ltac:(alphabeta_inner_call player max_player next_player d s Hinner).
Qed.

Lemma alphabeta_root_inner_min (max_player next_player player : Z)
      (board : loc) (b : B) (d : nat) (s : state B) :
  heap s !! board = Some b ->
  (forall c, c ∈ open_columns b (seq 0 (cols b)) ->
             terminal (place player c b) = false) ->
  wp (AlphaBeta.min_value (AlphaBeta.value max_player next_player (S d))
        player board) s
     (fun _ s' => grows (event_ok player player (length (heap s))) s s').
Proof.
  intros Hb Hinner. unfold AlphaBeta.min_value.
  apply wp_bind. eapply wp_eq; [reflexivity|].
  root_loop Hb Hinner
    ltac:(alphabeta_inner_call player max_player next_player d s Hinner).
Qed.

Lemma alphabeta_value_succ (max_player next_player : Z) (d : nat)
      (player : Z) (board : loc) :
  AlphaBeta.value max_player next_player (S d) player board
  = (emit (EvCall player board (S d));;
     b <- read board;;
     if terminal b then AlphaBeta.leaf player board
     else if next_player =? max_player
          then AlphaBeta.max_value (AlphaBeta.value max_player next_player d)
                                   player board
          else AlphaBeta.min_value (AlphaBeta.value max_player next_player d)
                                   player board).
Proof. reflexivity. Qed.

Lemma open_columns_inner (player : Z) (b : B) :
  (forall c, (c < cols b)%nat -> placeable b c = true ->
             terminal (place player c b) = false) ->
  forall c, c ∈ open_columns b (seq 0 (cols b)) ->
            terminal (place player c b) = false.
Proof.
  intros Hinner c Hc. unfold open_columns in Hc.
  apply list_elem_of_filter in Hc as [Hp Hc]. apply elem_of_seq in Hc.
  apply Hinner; [lia|exact Hp].
Qed.

(** X9: in [minimax] with a depth limit of 2 or more, on a board that is
    not terminal and none of whose successors is terminal, the root never
    assigns [placement]: the value a successor returns is the shared score
    itself, so the comparison at the root fails.  Whatever column is
    returned was recorded by a node below the root. *)
Theorem minimax_root_records_nothing (player : Z) (board : loc) (b : B)
        (d : nat) (s : state B) :
  heap s !! board = Some b ->
  terminal b = false ->
  (forall c, (c < cols b)%nat -> placeable b c = true ->
             terminal (place player c b) = false) ->
  exists r s' new,
    minimax player board (S (S d)) s = Some (r, s') /\
    log s' = new ++ EvCall player board (S (S d)) :: log s /\
    picks_of board new = [].
Proof.
  intros Hb Ht Hinner.
  assert (Hlt : (board < length (heap s))%nat)
    by (apply lookup_lt_Some in Hb; exact Hb).
  assert (W : wp (minimax player board (S (S d))) s
                 (fun _ s' =>
                    exists new,
                      log s' = new ++ EvCall player board (S (S d)) :: log s /\
                      picks_of board new = [])).
  { unfold minimax.
    do 2 (apply wp_bind; eapply wp_eq; [reflexivity|]).
    apply wp_bind. cbn [Minimax.value].
    apply wp_bind; (eapply wp_eq; [reflexivity|]).
    apply wp_bind;
      (eapply wp_eq; [unfold read; simpl; rewrite Hb; reflexivity|]).
    rewrite Ht, Z.eqb_refl.
    eapply wp_mono;
      [eapply (minimax_root_inner player board b d);
       [exact Hb|exact (open_columns_inner player b Hinner)]|].
    intros v s' (_ & new & E & F).
    unfold wp, bind, set_score, get_placement. simpl.
    eexists _, _. split; [reflexivity|]. exists new. simpl.
    split; [exact E|]. eapply no_picks; [exact F|exact Hlt]. }
  destruct W as (r & s' & Hrun & new & E & Hp).
  exists r, s', new. split; [exact Hrun|]. split; assumption.
Qed.

(** X10: the same for [alphabeta], whichever of [max_value] and
    [min_value] runs its root. *)
Theorem alphabeta_root_records_nothing (player : Z) (board : loc) (b : B)
        (d : nat) (s : state B) :
  heap s !! board = Some b ->
  terminal b = false ->
  (forall c, (c < cols b)%nat -> placeable b c = true ->
             terminal (place player c b) = false) ->
  exists r s' new,
    alphabeta player board (S (S d)) s = Some (r, s') /\
    log s' = new ++ EvCall player board (S (S d)) :: log s /\
    picks_of board new = [].
Proof.
  intros Hb Ht Hinner.
  assert (Hlt : (board < length (heap s))%nat)
    by (apply lookup_lt_Some in Hb; exact Hb).
  assert (W : wp (alphabeta player board (S (S d))) s
                 (fun _ s' =>
                    exists new,
                      log s' = new ++ EvCall player board (S (S d)) :: log s /\
                      picks_of board new = [])).
  { unfold alphabeta.
    do 4 (apply wp_bind; eapply wp_eq; [reflexivity|]).
    apply wp_bind. rewrite (alphabeta_value_succ _ _ (S d)).
    apply wp_bind; (eapply wp_eq; [reflexivity|]).
    apply wp_bind;
      (eapply wp_eq; [unfold read; simpl; rewrite Hb; reflexivity|]).
    rewrite Ht.
    destruct ((if player =? PLAYER1 then PLAYER2 else PLAYER1) =? player);
      (eapply wp_mono;
       [first [eapply (alphabeta_root_inner_max _ _ player board b d)
              |eapply (alphabeta_root_inner_min _ _ player board b d)];
        [exact Hb|exact (open_columns_inner player b Hinner)]|]);
      intros v s' (_ & new & E & F);
      unfold wp, bind, set_score, get_placement; simpl;
      (eexists _, _; split; [reflexivity|]); exists new; simpl;
      (split; [exact E|]); (eapply no_picks; [exact F|exact Hlt]). }
  destruct W as (r & s' & Hrun & new & E & Hp).
  exists r, s', new. split; [exact Hrun|]. split; assumption.
Qed.

End RootRecords.

(** ** More on evaluate *)

Lemma weighted_sum_bump (v w : list Z) :
  forall k,
    weighted_sum (bump k v) w
    = weighted_sum v w + match v !! k, w !! k with
                         | Some _, Some x => x
                         | _, _ => 0
                         end.
Proof.
  unfold weighted_sum, bump. revert w.
  induction v as [|x v IH]; intros w k.
  - simpl. lia.
  - destruct w as [|y w].
    + destruct k as [|k]; simpl; [lia|destruct (v !! k); lia].
    + destruct k as [|k]; simpl.
      * lia.
      * change (list_alter Z.succ k v) with (alter Z.succ k v).
        rewrite IH. lia.
Qed.

(** One more counted segment changes a weighted sum by a weight, between 0
    and 1000. *)
Lemma weighted_sum_bump_weights (v : list Z) (k : nat) :
  weighted_sum v weights <= weighted_sum (bump k v) weights
  <= weighted_sum v weights + 1000.
Proof.
  rewrite weighted_sum_bump. destruct (v !! k); [|lia].
  do 5 (destruct k as [|k]; [simpl; lia|]). simpl. lia.
Qed.

Lemma weighted_sum_bump_zero (v : list Z) :
  weighted_sum (bump 0 v) weights = weighted_sum v weights.
Proof. rewrite weighted_sum_bump. destruct (v !! 0%nat); simpl; lia. Qed.

Lemma mem_false (x : Z) (s : list Z) :
  Forall (fun y => y <> x) s -> mem x s = false.
Proof.
  unfold mem. induction 1 as [|y s Hy _ IH]; [reflexivity|]. simpl.
  rewrite IH. destruct (Z.eqb_spec x y); [congruence|reflexivity].
Qed.

Lemma mem_false_inv (x : Z) (s : list Z) :
  mem x s = false -> Forall (fun y => y <> x) s.
Proof.
  unfold mem. induction s as [|y s IH]; simpl; [constructor|].
  intros E. apply orb_false_iff in E as [E1 E2].
  constructor; [|apply IH; exact E2].
  apply Z.eqb_neq in E1. congruence.
Qed.

Lemma count_zero (x : Z) (s : list Z) :
  Forall (fun y => y <> x) s -> count x s = 0%nat.
Proof.
  unfold count. induction 1 as [|y s Hy _ IH]; [reflexivity|].
  rewrite filter_cons, decide_False by exact Hy. exact IH.
Qed.

Lemma zip_with_cons_Forall {A} (P : A -> Prop) (l : list A) :
  Forall P l ->
  forall k, Forall (Forall P) k -> Forall (Forall P) (zip_with cons l k).
Proof.
  induction 1 as [|x l Hx _ IH]; intros k Hk; [constructor|].
  destruct Hk as [|t k Ht Hk]; simpl; constructor.
  - constructor; assumption.
  - apply IH. exact Hk.
Qed.

Lemma zip_star_Forall {A} (P : A -> Prop) (ls : list (list A)) :
  Forall (Forall P) ls -> Forall (Forall P) (zip_star ls).
Proof.
  induction 1 as [|l ls Hl Hls IH]; [constructor|].
  destruct ls as [|l' ls].
  - simpl. clear IH Hls. induction Hl; simpl; constructor; auto.
  - change (zip_star (l :: l' :: ls))
      with (zip_with cons l (zip_star (l' :: ls))).
    apply zip_with_cons_Forall; assumption.
Qed.

Lemma slice4_Forall {A} (P : A -> Prop) (l : list A) (i : nat) :
  Forall P l -> Forall P (slice4 l i).
Proof. intros Hl. unfold slice4. apply Forall_take, Forall_drop, Hl. Qed.

Section EvaluateMore.
Context {B : Type} `{Board B}.

(** Every slot of every segment satisfies what the sentinel and the slots
    of the rows and columns satisfy. *)
Lemma segments_Forall (P : Z -> Prop) (board : B) :
  P invalid_slot ->
  (forall r, Forall P (row board r)) ->
  (forall c, Forall P (col board c)) ->
  Forall (Forall P) (segments board).
Proof.
  intros Hinv Hrow Hcol.
  assert (Hslices : forall (ls : list (list Z)) (n : nat),
             Forall (Forall P) ls ->
             Forall (Forall P)
                    (flat_map (fun c => map (slice4 c) (seq 0 n)) ls)).
  { intros ls n Hls. apply Forall_forall. intros s Hs.
    apply list_elem_of_In, in_flat_map in Hs as (l & Hl & Hs).
    apply in_map_iff in Hs as (i & <- & _).
    apply slice4_Forall.
    apply list_elem_of_In in Hl. revert l Hl. apply Forall_forall. exact Hls. }
  assert (Hrev : forall (pad1 pad2 : nat -> nat),
             Forall (Forall P)
                    (map (fun r => replicate (pad1 r) invalid_slot ++
                                   row board r ++
                                   replicate (pad2 r) invalid_slot)
                         (seq 0 (rows board)))).
  { intros pad1 pad2. apply Forall_forall. intros l Hl.
    apply list_elem_of_In, in_map_iff in Hl as (r & <- & _).
    repeat (apply Forall_app; split); try apply Hrow;
      apply Forall_replicate; exact Hinv. }
  unfold segments. repeat (apply Forall_app; split).
  - apply Forall_forall. intros s Hs.
    apply list_elem_of_In, in_flat_map in Hs as (r & _ & Hs).
    apply in_map_iff in Hs as (i & <- & _). apply slice4_Forall, Hrow.
  - apply Forall_forall. intros s Hs.
    apply list_elem_of_In, in_flat_map in Hs as (c & _ & Hs).
    apply in_map_iff in Hs as (i & <- & _). apply slice4_Forall, Hcol.
  - apply Hslices, zip_star_Forall.
    apply (Hrev (fun r => r) (fun r => (rows board - 1 - r)%nat)).
  - apply Hslices, zip_star_Forall.
    apply (Hrev (fun r => (rows board - 1 - r)%nat) (fun r => r)).
Qed.

(** The two weighted sums only grow along the scoring loop, by 1000 a
    segment at most. *)
Lemma tally_bounds (player adversary : Z) (acc : list Z * list Z)
      (s : list Z) :
  let acc' := tally player adversary acc s in
  weighted_sum (fst acc) weights <= weighted_sum (fst acc') weights
  <= weighted_sum (fst acc) weights + 1000 /\
  weighted_sum (snd acc) weights <= weighted_sum (snd acc') weights
  <= weighted_sum (snd acc) weights + 1000.
Proof.
  unfold tally. destruct (mem invalid_slot s); simpl; [lia|].
  split.
  - destruct (negb (mem adversary s)); [apply weighted_sum_bump_weights|lia].
  - destruct (negb (mem player s)); [apply weighted_sum_bump_weights|lia].
Qed.

Lemma foldl_tally_bounds (player adversary : Z) (seg : list (list Z)) :
  forall acc,
    let acc' := foldl (tally player adversary) acc seg in
    weighted_sum (fst acc) weights <= weighted_sum (fst acc') weights
    <= weighted_sum (fst acc) weights + 1000 * Z.of_nat (length seg) /\
    weighted_sum (snd acc) weights <= weighted_sum (snd acc') weights
    <= weighted_sum (snd acc) weights + 1000 * Z.of_nat (length seg).
Proof.
  induction seg as [|s seg IH]; intros acc; simpl.
  - lia.
  - specialize (IH (tally player adversary acc s)). simpl in IH.
    pose proof (tally_bounds player adversary acc s) as Hstep.
    simpl in Hstep. lia.
Qed.

(** X12: the score of a board is at most 1000 times the number of its
    4-slot segments, in absolute value; in particular it is an integer
    strictly between the two infinities the searches start from. *)
Theorem evaluate_bounded (player : Z) (board : B) :
  - (1000 * Z.of_nat (length (segments board))) <= evaluate player board
  <= 1000 * Z.of_nat (length (segments board)).
Proof.
  unfold evaluate, tallies.
  pose proof (foldl_tally_bounds player (adversary_of player) (segments board)
                (replicate 5 0, replicate 5 0)) as Hb.
  cbv zeta in Hb.
  destruct (foldl (tally player (adversary_of player))
                  (replicate 5 0, replicate 5 0) (segments board))
    as [sc adv].
  cbn [fst snd] in Hb.
  assert (Hz : weighted_sum (replicate 5 0) weights = 0) by reflexivity.
  rewrite Hz in Hb. lia.
Qed.

Lemma foldl_tally_quiet (player adversary : Z) (seg : list (list Z)) :
  Forall (Forall (fun x => x = invalid_slot \/
                           (x <> player /\ x <> adversary))) seg ->
  forall acc,
    let acc' := foldl (tally player adversary) acc seg in
    weighted_sum (fst acc') weights = weighted_sum (fst acc) weights /\
    weighted_sum (snd acc') weights = weighted_sum (snd acc) weights.
Proof.
  induction 1 as [|s seg Hs _ IH]; intros acc; simpl; [split; reflexivity|].
  specialize (IH (tally player adversary acc s)). simpl in IH.
  destruct IH as [IH1 IH2]. rewrite IH1, IH2. clear IH1 IH2.
  unfold tally. destruct (mem invalid_slot s) eqn:Hinv; [split; reflexivity|].
  apply mem_false_inv in Hinv.
  assert (Hp : Forall (fun y => y <> player) s).
  { apply Forall_forall. intros y Hy.
    pose proof (proj1 (Forall_forall _ _) Hs y Hy) as [E|[E _]]; [|exact E].
    pose proof (proj1 (Forall_forall _ _) Hinv y Hy). contradiction. }
  assert (Ha : Forall (fun y => y <> adversary) s).
  { apply Forall_forall. intros y Hy.
    pose proof (proj1 (Forall_forall _ _) Hs y Hy) as [E|[_ E]]; [|exact E].
    pose proof (proj1 (Forall_forall _ _) Hinv y Hy). contradiction. }
  rewrite (mem_false _ _ Hp), (mem_false _ _ Ha),
    (count_zero _ _ Hp), (count_zero _ _ Ha).
  simpl. split; apply weighted_sum_bump_zero.
Qed.

(** X13: a board on which neither the player nor the adversary has a disc
    scores 0, whatever its dimensions: the segments are counted at index 0,
    whose weight is 0. *)
Theorem evaluate_without_discs (player : Z) (board : B) :
  (forall r, Forall (fun x => x <> player /\ x <> adversary_of player)
                    (row board r)) ->
  (forall c, Forall (fun x => x <> player /\ x <> adversary_of player)
                    (col board c)) ->
  evaluate player board = 0.
Proof.
  intros Hrow Hcol. unfold evaluate, tallies.
  pose proof (foldl_tally_quiet player (adversary_of player) (segments board))
    as Hq.
  destruct (Hq (segments_Forall _ board (or_introl eq_refl)
                  (fun r => Forall_impl _ _ _ (Hrow r) (fun x Hx => or_intror Hx))
                  (fun c => Forall_impl _ _ _ (Hcol c) (fun x Hx => or_intror Hx)))
               (replicate 5 0, replicate 5 0)) as [H1 H2].
  destruct (foldl (tally player (adversary_of player))
                  (replicate 5 0, replicate 5 0) (segments board))
    as [sc adv].
  cbn [fst snd] in H1, H2. rewrite H1, H2. reflexivity.
Qed.

End EvaluateMore.

(** ** The further properties at a board *)

Lemma empty67_successors (player : Z) (c : nat) :
  player = 1 ->
  (c < cols empty67)%nat -> placeable empty67 c = true ->
  terminal (place player c empty67) = false.
Proof.
  intros -> Hc _. change (cols empty67) with 7%nat in Hc.
  do 7 (destruct c as [|c]; [vm_compute; reflexivity|]). lia.
Qed.

Lemma empty67_rows (r : nat) :
  Forall (fun x => x <> 1 /\ x <> adversary_of (B := Grid.grid) 1)
         (row empty67 r).
Proof.
  do 6 (destruct r as [|r];
        [repeat constructor; vm_compute; discriminate|]).
  constructor.
Qed.

Lemma empty67_cols (c : nat) :
  Forall (fun x => x <> 1 /\ x <> adversary_of (B := Grid.grid) 1)
         (col empty67 c).
Proof.
  change (col empty67 c) with (Grid.grid_col empty67 c).
  unfold Grid.grid_col. apply Forall_forall. intros x Hx.
  apply list_elem_of_In, in_map_iff in Hx as (rw & <- & Hrw).
  apply list_elem_of_In in Hrw. unfold empty67, Grid.empty in Hrw.
  apply elem_of_replicate in Hrw as [-> _].
  destruct (replicate 7 Grid.EMPTY_SLOT !! c) as [x|] eqn:E;
    [apply lookup_replicate in E as [-> _]|];
    split; vm_compute; discriminate.
Qed.

Lemma filled_no_move (c : nat) :
  (c < cols filled)%nat -> placeable filled c = false.
Proof.
  intros Hc. change (cols filled) with 7%nat in Hc.
  do 7 (destruct c as [|c]; [reflexivity|]). lia.
Qed.

Lemma terminal_board_returns_none_witness :
  (heap (start [won]) !! 0%nat = Some won /\ terminal won = true) /\
  (exists s', minimax 1 0%nat 3 (start [won]) = Some (None, s') /\
              heap s' = heap (start [won]) /\
              log s' = EvLeaf 1 0%nat :: EvCall 1 0%nat 3
                         :: log (start [won])) /\
  (exists s', alphabeta 1 0%nat 3 (start [won]) = Some (None, s') /\
              heap s' = heap (start [won]) /\
              log s' = EvLeaf 1 0%nat :: EvCall 1 0%nat 3
                         :: log (start [won])) /\
  (exists s', expectimax 1 0%nat 3 (start [won]) = Some (None, s') /\
              heap s' = heap (start [won]) /\
              log s' = EvLeaf 1 0%nat :: EvCall 1 0%nat 3
                         :: log (start [won])).
Proof.
  split; [split; vm_compute; reflexivity|].
  apply (terminal_board_returns_none 1 0%nat 3 won (start [won]));
    vm_compute; reflexivity.
Defined.

Lemma no_move_returns_none_witness :
  (heap (start [filled]) !! 0%nat = Some filled /\
   forall c, (c < cols filled)%nat -> placeable filled c = false) /\
  (exists s', minimax 1 0%nat 3 (start [filled]) = Some (None, s') /\
              heap s' = heap (start [filled])) /\
  (exists s', alphabeta 1 0%nat 3 (start [filled]) = Some (None, s') /\
              heap s' = heap (start [filled])) /\
  (exists s', expectimax 1 0%nat 3 (start [filled]) = Some (None, s') /\
              heap s' = heap (start [filled])).
Proof.
  split; [split; [reflexivity|exact filled_no_move]|].
  apply (no_move_returns_none 1 0%nat 3 filled (start [filled]));
    [reflexivity|exact filled_no_move].
Defined.

Lemma minimax_depth_one_witness :
  (heap (start [threat]) !! 0%nat = Some threat /\ terminal threat = false) /\
  exists r s',
    minimax 1 0%nat 1 (start [threat]) = Some (r, s') /\
    first_max (fun c => evaluate 1 (place 1 c threat))
              (open_columns threat (seq 0 (cols threat))) r.
Proof.
  split; [split; vm_compute; reflexivity|].
  apply (minimax_depth_one 1 0%nat threat (start [threat]));
    vm_compute; reflexivity.
Defined.

Lemma alphabeta_depth_one_witness :
  (PLAYER1 (B := Grid.grid) <> PLAYER2 (B := Grid.grid) /\
   heap (start [threat]) !! 0%nat = Some threat /\ terminal threat = false) /\
  exists r s',
    alphabeta 1 0%nat 1 (start [threat]) = Some (r, s') /\
    first_min (fun c => evaluate 1 (place 1 c threat))
              (open_columns threat (seq 0 (cols threat))) r.
Proof.
  split; [split; [discriminate|split; vm_compute; reflexivity]|].
  apply (alphabeta_depth_one 1 0%nat threat (start [threat]));
    [discriminate|vm_compute; reflexivity..].
Defined.

Lemma expectimax_depth_one_witness :
  (heap (start [threat]) !! 0%nat = Some threat /\ terminal threat = false) /\
  exists r s',
    expectimax 1 0%nat 1 (start [threat]) = Some (r, s') /\
    first_max (fun c => evaluate (adversary_of 1) (place 1 c threat))
              (open_columns threat (seq 0 (cols threat))) r.
Proof.
  split; [split; vm_compute; reflexivity|].
  apply (expectimax_depth_one 1 0%nat threat (start [threat]));
    vm_compute; reflexivity.
Defined.

Lemma expectimax_alphabeta_depth_one_witness :
  (PLAYER1 (B := Grid.grid) <> PLAYER2 (B := Grid.grid) /\
   (1 = PLAYER1 (B := Grid.grid) \/ 1 = PLAYER2 (B := Grid.grid)) /\
   heap (start [threat]) !! 0%nat = Some threat /\ terminal threat = false) /\
  exists r s1 s2,
    expectimax 1 0%nat 1 (start [threat]) = Some (r, s1) /\
    alphabeta 1 0%nat 1 (start [threat]) = Some (r, s2) /\
    first_min (fun c => evaluate 1 (place 1 c threat))
              (open_columns threat (seq 0 (cols threat))) r.
Proof.
  split;
    [split; [discriminate|split; [left; reflexivity|
                                  split; vm_compute; reflexivity]]|].
  apply (expectimax_alphabeta_depth_one 1 0%nat threat (start [threat]));
    [discriminate|left; reflexivity|vm_compute; reflexivity..].
Defined.

Lemma minimax_root_records_nothing_witness :
  (heap (start [empty67]) !! 0%nat = Some empty67 /\
   terminal empty67 = false /\
   forall c, (c < cols empty67)%nat -> placeable empty67 c = true ->
             terminal (place 1 c empty67) = false) /\
  exists r s' new,
    minimax 1 0%nat 2 (start [empty67]) = Some (r, s') /\
    log s' = new ++ EvCall 1 0%nat 2 :: log (start [empty67]) /\
    picks_of 0%nat new = [].
Proof.
  split;
    [split; [reflexivity|split; [vm_compute; reflexivity|
                                 exact (fun c => empty67_successors 1 c eq_refl)]]|].
  apply (minimax_root_records_nothing 1 0%nat empty67 0 (start [empty67]));
    [reflexivity|vm_compute; reflexivity|
     exact (fun c => empty67_successors 1 c eq_refl)].
Defined.

Lemma alphabeta_root_records_nothing_witness :
  (heap (start [empty67]) !! 0%nat = Some empty67 /\
   terminal empty67 = false /\
   forall c, (c < cols empty67)%nat -> placeable empty67 c = true ->
             terminal (place 1 c empty67) = false) /\
  exists r s' new,
    alphabeta 1 0%nat 2 (start [empty67]) = Some (r, s') /\
    log s' = new ++ EvCall 1 0%nat 2 :: log (start [empty67]) /\
    picks_of 0%nat new = [].
Proof.
  split;
    [split; [reflexivity|split; [vm_compute; reflexivity|
                                 exact (fun c => empty67_successors 1 c eq_refl)]]|].
  apply (alphabeta_root_records_nothing 1 0%nat empty67 0 (start [empty67]));
    [reflexivity|vm_compute; reflexivity|
     exact (fun c => empty67_successors 1 c eq_refl)].
Defined.

Lemma evaluate_without_discs_witness :
  ((forall r, Forall (fun x => x <> 1 /\ x <> adversary_of (B := Grid.grid) 1)
                     (row empty67 r)) /\
   (forall c, Forall (fun x => x <> 1 /\ x <> adversary_of (B := Grid.grid) 1)
                     (col empty67 c))) /\
  evaluate 1 empty67 = 0.
Proof.
  split; [split; [exact empty67_rows|exact empty67_cols]|].
  apply (evaluate_without_discs 1 empty67);
    [exact empty67_rows|exact empty67_cols].
Defined.

(** ** alphabeta never leaves a loop early *)

Lemma upper_int (z : Z) : upper (Int z).
Proof. left. exists z. reflexivity. Qed.

Lemma upper_inf : upper inf.
Proof. right. reflexivity. Qed.

Lemma num_le_upper (v : num) : upper v -> num_le v neg_inf = false.
Proof. intros [[z ->]| ->]; reflexivity. Qed.

Lemma upper_min (a b : num) : upper a -> upper b -> upper (num_min a b).
Proof. intros Ha Hb. unfold num_min. destruct (num_lt b a); assumption. Qed.

Lemma calls_app (l1 l2 : list event) : calls (l1 ++ l2) = calls l1 ++ calls l2.
Proof. unfold calls. apply omap_app. Qed.

Section NeverPrunes.
Context {B : Type} `{Board B}.
Variables (player max_player next_player : Z).
Hypothesis Htest : (next_player =? max_player) = false.

Lemma unpruned_trans (s t u : state B) (j k : nat) :
  unpruned s j t -> unpruned t k u -> unpruned s (j + k) u.
Proof.
  intros (P1 & (n1 & E1 & L1) & _ & _ & S1) (P2 & (n2 & E2 & L2) & Ha & Hbt & S2).
  split; [etrans; eassumption|].
  split; [|split; [exact Ha|split; [exact Hbt|auto]]].
  exists (n2 ++ n1). split; [rewrite E2, E1, app_assoc; reflexivity|].
  rewrite calls_app, length_app. lia.
Qed.

Lemma alphabeta_value_unpruned (depth_limit : nat) :
  forall (board : loc) (b : B) (s : state B),
    heap s !! board = Some b ->
    alpha s = neg_inf -> upper (beta s) ->
    exists v s',
      AlphaBeta.value max_player next_player depth_limit player board s
      = Some (v, s') /\
      upper v /\ unpruned s (tree_size player depth_limit b) s'.
Proof.
  induction depth_limit as [|d IH]; intros board b s Hb Ha Hbt.
  - cbn [AlphaBeta.value tree_size].
    unfold AlphaBeta.leaf, bind, emit, read, ret. simpl. rewrite Hb. simpl.
    rewrite Hb. eexists _, _. split; [reflexivity|].
    split; [apply upper_int|]. split; [reflexivity|]. simpl.
    split; [|split; [exact Ha|split; [exact Hbt|auto]]].
    exists [EvLeaf player board; EvCall player board 0]. split; reflexivity.
  - rewrite alphabeta_value_succ. cbn [tree_size].
    unfold bind at 1. unfold emit at 1. cbv beta iota.
    unfold bind at 1. unfold read at 1. simpl heap. rewrite Hb. cbv beta iota.
    destruct (terminal b).
    + unfold AlphaBeta.leaf, bind, emit, read, ret. simpl. rewrite Hb.
      eexists _, _. split; [reflexivity|].
      split; [apply upper_int|]. split; [reflexivity|]. simpl.
      split; [|split; [exact Ha|split; [exact Hbt|auto]]].
      exists [EvLeaf player board; EvCall player board (S d)].
      split; reflexivity.
    + rewrite Htest. unfold AlphaBeta.min_value.
      unfold bind at 1. unfold set_score at 1. cbv beta iota.
      set (s0 := State _ _ inf _ _ _).
      set (cs := open_columns b (seq 0 (cols b))).
      set (s1 := with_children player b cs s0).
      eapply (wp_mono _ _
                (fun v s' =>
                   v = score s' /\
                   unpruned s1
                     (foldl (fun k c =>
                               (k + tree_size player d (place player c b))%nat)
                            0%nat cs) s')).
      * unfold wp.
        eapply (scan_node (unpruned s1)
                  (fun k c => (k + tree_size player d (place player c b))%nat))
          with (start_cur := 0%nat).
        -- exact Hb.
        -- split; [reflexivity|]. split; [exists []; split; reflexivity|].
           split; [exact Ha|split; [exact Hbt|auto]].
        -- intros c l cur t Hl Hcur.
           pose proof Hcur as (Hpre & _ & Hat & Hbt' & _).
           destruct (IH l (place player c b) t)
             as (val & t' & Ecall & Hval & Hun);
             [eapply prefix_lookup_Some; [exact Hl|exact Hpre]
             |exact Hat|exact Hbt'|].
           pose proof Hun as (Hpre' & (new & Elog & Hlen) & Hat' & Hbt'' & Hst').
           cbv beta. simpl fst. simpl snd. unfold bind at 1. rewrite Ecall.
           cbv beta iota. unfold bind at 1, get_score at 1. cbv beta iota.
           destruct (num_lt val (score t')).
           ++ unfold bind, set_score, set_placement, emit, get_beta, get_score,
                set_beta, get_alpha, ret. simpl.
              rewrite Hat', (num_le_upper _ (upper_min _ _ Hbt'' Hval)).
              eexists. split; [reflexivity|].
              eapply unpruned_trans; [exact Hcur|].
              split; [exact Hpre'|]. simpl.
              split; [exists (EvPick board c :: new); split;
                      [rewrite Elog; reflexivity|exact Hlen]|].
              split; [first [exact Hat'|reflexivity]|].
              split; [apply upper_min; assumption|intros _; exact Hval].
           ++ unfold bind, get_beta, get_alpha, ret. simpl.
              rewrite Hat', (num_le_upper _ Hbt'').
              eexists. split; [reflexivity|].
              eapply unpruned_trans; [exact Hcur|exact Hun].
      * intros v s' (Hv & Hun).
        pose proof Hun as (Hpre & (new & Elog & Hlen) & Hat & Hbt' & Hst).
        assert (Hs' : upper (score s')) by (apply Hst; apply upper_inf).
        split; [rewrite Hv; exact Hs'|].
        split; [etrans; [|exact Hpre]; simpl; apply prefix_app_r; reflexivity|].
        split; [|split; [exact Hat|split; [exact Hbt'|intros _; exact Hs']]].
        exists (new ++ [EvCall player board (S d)]). split.
        -- rewrite Elog, <- app_assoc. reflexivity.
        -- rewrite calls_app, length_app, Hlen. simpl. lia.
Qed.

End NeverPrunes.

Section NeverPrunesSearch.
Context {B : Type} `{Board B}.

(** X14: with two distinct player tokens [alphabeta] never leaves a loop by
    [break]: at every depth limit it calls [value] once for every node of
    the tree of that depth in which the player moves at every ply.  Its
    nodes are all run by [min_value], so that [alpha] stays at [-inf] and
    the test [beta <= alpha] never holds. *)
Theorem alphabeta_never_prunes (player : Z) (board : loc) (depth_limit : nat)
        (b : B) (s : state B) :
  PLAYER1 <> PLAYER2 ->
  heap s !! board = Some b ->
  exists r s' new,
    alphabeta player board depth_limit s = Some (r, s') /\
    log s' = new ++ log s /\
    length (calls new) = tree_size player depth_limit b /\
    alpha s' = neg_inf.
Proof.
  intros Hne Hb.
  destruct (alphabeta_value_unpruned player player
              (if player =? PLAYER1 then PLAYER2 else PLAYER1)
              (adversary_differs player Hne) depth_limit board b
              (State (heap s) None neg_inf neg_inf inf (log s))
              Hb eq_refl upper_inf)
    as (v & s' & Hrun & _ & _ & (new & Elog & Hlen) & Ha & _).
  exists (placement s'),
         (State (heap s') (placement s') v (alpha s') (beta s') (log s')),
         new.
  split; [|split; [exact Elog|split; [exact Hlen|exact Ha]]].
  unfold alphabeta, bind, set_placement, set_score, set_alpha, set_beta,
    get_placement. simpl. rewrite Hrun. reflexivity.
Qed.

End NeverPrunesSearch.

Lemma alphabeta_never_prunes_witness :
  (PLAYER1 (B := Grid.grid) <> PLAYER2 (B := Grid.grid) /\
   heap (start [threat]) !! 0%nat = Some threat) /\
  exists r s' new,
    alphabeta 1 0%nat 2 (start [threat]) = Some (r, s') /\
    log s' = new ++ log (start [threat]) /\
    length (calls new) = tree_size 1 2 threat /\
    alpha s' = neg_inf.
Proof.
  split; [split; [discriminate|reflexivity]|].
  apply (alphabeta_never_prunes 1 0%nat 2 threat (start [threat]));
    [discriminate|reflexivity].
Defined.

Section SingleOption.
Context {B : Type} `{Board B}.

(** X15: when exactly one column is placeable on a board that is not
    terminal, each of the three functions returns that column at depth
    limit 1 (for [alphabeta], with two distinct player tokens). *)
Theorem single_option_depth_one (player : Z) (board : loc) (b : B)
        (c0 : nat) (s : state B) :
  PLAYER1 <> PLAYER2 ->
  heap s !! board = Some b ->
  terminal b = false ->
  open_columns b (seq 0 (cols b)) = [c0] ->
  (exists s', minimax player board 1 s = Some (Some c0, s')) /\
  (exists s', alphabeta player board 1 s = Some (Some c0, s')) /\
  (exists s', expectimax player board 1 s = Some (Some c0, s')).
Proof.
  intros Hne Hb Ht Hone.
  destruct (minimax_depth_one_run player board b s Hb Ht)
    as (r1 & s1 & E1 & ->).
  destruct (alphabeta_depth_one_run player board b s Hne Hb Ht)
    as (r2 & s2 & E2 & ->).
  destruct (expectimax_depth_one_run player board b s Hb Ht)
    as (r3 & s3 & E3 & ->).
  rewrite Hone in E1, E2, E3. simpl in E1, E2, E3.
  split; [exists s1; exact E1|]. split; [exists s2; exact E2|exists s3; exact E3].
Qed.

End SingleOption.

Lemma single_option_depth_one_witness :
  (PLAYER1 (B := Grid.grid) <> PLAYER2 (B := Grid.grid) /\
   heap (start [lone]) !! 0%nat = Some lone /\
   terminal lone = false /\
   open_columns lone (seq 0 (cols lone)) = [3%nat]) /\
  (exists s', minimax 1 0%nat 1 (start [lone]) = Some (Some 3%nat, s')) /\
  (exists s', alphabeta 1 0%nat 1 (start [lone]) = Some (Some 3%nat, s')) /\
  (exists s', expectimax 1 0%nat 1 (start [lone]) = Some (Some 3%nat, s')).
Proof.
  split; [split; [discriminate|split; [reflexivity|
                                       split; vm_compute; reflexivity]]|].
  apply (single_option_depth_one 1 0%nat lone 3%nat (start [lone]));
    [discriminate|reflexivity|vm_compute; reflexivity..].
Defined.
